(** * goldOS virtual machine ([vm.py]): a shallow embedding and its properties

    The interpreter is a Python class [VM] whose methods mutate the instance
    (memory, registers, program counter, stack pointer, running flag) and may
    raise.  It is embedded here as a state-and-exception monad over a record
    of the instance fields: a raised exception keeps the state reached so
    far, exactly as an exception leaves a Python object.

    - Python integers are unbounded: they are [Z].
    - [bytearray] / [bytes] values are [list byte]; slices follow Python's
      rules (negative indices, clipping, resizing slice assignment).
    - [struct.pack] / [struct.unpack] with format [">I"] / [">i"] are the
      big-endian 4-byte codecs, raising [struct.error] on a wrong length or
      an out-of-range integer. *)

From Stdlib Require Import ZArith Lia Ascii String.
From Stdlib.Strings Require Import Byte.
From Stdlib Require Import Decimal Hexadecimal DecimalString.
From stdpp Require Import base tactics option list.

Local Open Scope Z_scope.

(** ** Python values: exceptions, bytes, slices, [struct], [pow], formatting *)

Module Py.

(** The Python exceptions the interpreter can raise. *)
Inductive exn : Type :=
| StructError   (* struct.error *)
| IndexError    (* IndexError: index out of range *)
| ValueError.   (* ValueError from the three-argument pow *)

(** Result of a pure helper: a value or a raised exception. *)
Inductive res (A : Type) : Type :=
| Ret (a : A)
| Raise (e : exn).
Arguments Ret {A} a.
Arguments Raise {A} e.

(** *** Bytes *)

Definition byte_val (b : byte) : Z := Z.of_N (Byte.to_N b).

Definition byte_of_Z (z : Z) : byte :=
  match Byte.of_N (Z.to_N (z mod 256)) with
  | Some b => b
  | None => x00
  end.

(** *** Sequence indexing and slicing *)

(** [l[i]] for a Python sequence: a negative index counts from the end,
    anything outside the sequence raises [IndexError]. *)
Definition norm_index (n : nat) (i : Z) : option nat :=
  if 0 <=? i then
    if i <? Z.of_nat n then Some (Z.to_nat i) else None
  else
    if 0 <=? i + Z.of_nat n then Some (Z.to_nat (i + Z.of_nat n)) else None.

Definition getitem {A} (l : list A) (i : Z) : res A :=
  match norm_index (length l) i with
  | Some k => match l !! k with Some x => Ret x | None => Raise IndexError end
  | None => Raise IndexError
  end.

(** Clipping of one slice bound against a sequence of length [n]
    (CPython's [PySlice_AdjustIndices] for step 1). *)
Definition adjust (n i : Z) : Z :=
  if i <? 0 then Z.max (i + n) 0 else Z.min i n.

(** Start and stop of [l[i:j]] as offsets; an inverted slice is empty and
    sits at its start. *)
Definition slice_lo {A} (l : list A) (i : Z) : nat :=
  Z.to_nat (adjust (Z.of_nat (length l)) i).

Definition slice_hi {A} (l : list A) (i j : Z) : nat :=
  let n := Z.of_nat (length l) in
  Z.to_nat (Z.max (adjust n i) (adjust n j)).

(** [l[i:j]] *)
Definition getslice {A} (l : list A) (i j : Z) : list A :=
  take (slice_hi l i j - slice_lo l i) (drop (slice_lo l i) l).

(** [l[i:j] = v] on a [bytearray]: the slice is replaced by [v], whatever
    the two lengths are, so the sequence may grow or shrink. *)
Definition setslice {A} (l : list A) (i j : Z) (v : list A) : list A :=
  take (slice_lo l i) l ++ v ++ drop (slice_hi l i j) l.

(** *** [struct] codecs *)

(** [struct.pack(">I", v)] *)
Definition pack_u32_be (v : Z) : res (list byte) :=
  if (0 <=? v) && (v <=? 0xFFFFFFFF) then
    Ret [ byte_of_Z (v / 0x1000000); byte_of_Z (v / 0x10000);
          byte_of_Z (v / 0x100); byte_of_Z v ]
  else Raise StructError.

(** [struct.unpack(">I", b)[0]] *)
Definition read_u32_be (b : list byte) : res Z :=
  match b with
  | [b0; b1; b2; b3] =>
      Ret (((byte_val b0 * 256 + byte_val b1) * 256 + byte_val b2) * 256
           + byte_val b3)
  | _ => Raise StructError
  end.

(** [struct.unpack(">i", b)[0]] *)
Definition read_s32_be (b : list byte) : res Z :=
  match read_u32_be b with
  | Ret u => Ret (if u <? 0x80000000 then u else u - 0x100000000)
  | Raise e => Raise e
  end.

(** *** The three-argument [pow] *)

(** Square-and-multiply over the bits of the exponent, reducing at every
    step. *)
Fixpoint pow_mod_pos (base : Z) (e : positive) (m : Z) : Z :=
  match e with
  | xH => base mod m
  | xO e' => let t := pow_mod_pos base e' m in (t * t) mod m
  | xI e' => let t := pow_mod_pos base e' m in (((t * t) mod m) * base) mod m
  end.

(** [pow(base, e, m)] for a positive modulus.  A negative exponent asks
    for a modular inverse; register values are never negative (see
    [step_wf] below), so that branch is represented by the exception alone. *)
Definition pow3 (base e m : Z) : res Z :=
  match e with
  | Z0 => Ret (1 mod m)
  | Zpos p => Ret (pow_mod_pos base p m)
  | Zneg _ => Raise ValueError
  end.

(** *** String formatting used by the diagnostic *)

Fixpoint upper_hex (d : Hexadecimal.uint) : string :=
  match d with
  | Hexadecimal.Nil => EmptyString
  | Hexadecimal.D0 d => String "0" (upper_hex d)
  | Hexadecimal.D1 d => String "1" (upper_hex d)
  | Hexadecimal.D2 d => String "2" (upper_hex d)
  | Hexadecimal.D3 d => String "3" (upper_hex d)
  | Hexadecimal.D4 d => String "4" (upper_hex d)
  | Hexadecimal.D5 d => String "5" (upper_hex d)
  | Hexadecimal.D6 d => String "6" (upper_hex d)
  | Hexadecimal.D7 d => String "7" (upper_hex d)
  | Hexadecimal.D8 d => String "8" (upper_hex d)
  | Hexadecimal.D9 d => String "9" (upper_hex d)
  | Hexadecimal.Da d => String "A" (upper_hex d)
  | Hexadecimal.Db d => String "B" (upper_hex d)
  | Hexadecimal.Dc d => String "C" (upper_hex d)
  | Hexadecimal.Dd d => String "D" (upper_hex d)
  | Hexadecimal.De d => String "E" (upper_hex d)
  | Hexadecimal.Df d => String "F" (upper_hex d)
  end.

Fixpoint zeros (n : nat) : string :=
  match n with
  | O => EmptyString
  | S n' => String "0" (zeros n')
  end.

Definition zfill (width : nat) (s : string) : string :=
  (zeros (width - String.length s) ++ s)%string.

(** [f"{z:04X}"]: upper-case hexadecimal, zero-filled to four columns, the
    sign (if any) taking the first one. *)
Definition format_04X (z : Z) : string :=
  match z with
  | Zneg p => String "-" (zfill 3 (upper_hex (Pos.to_hex_uint p)))
  | _ => zfill 4 (upper_hex (N.to_hex_uint (Z.to_N z)))
  end.

(** [f"{z}"] *)
Definition format_d (z : Z) : string :=
  NilZero.string_of_int (Z.to_int z).

End Py.

(** ** The machine *)

Module Machine.
Import Py.

(** *** VM configuration *)

Definition NUM_REGS : nat := 16.
Definition ACC : Z := 15.
Definition MEM_SIZE : Z := 2 ^ 20.

(** [clamp_reg(r)]: clamp a register index to 14. *)
Definition clamp_reg (r : Z) : Z := Z.min r 14.

(** *** Instance state

    The fields of a [VM] object; [stdout] collects the lines written by
    [print]. *)
Record VM : Type := mkVM {
  memory : list byte;
  regs : list Z;
  pc : Z;
  sp : Z;
  running : bool;
  stdout : list string
}.

Definition set_memory (m : list byte) (vm : VM) : VM :=
  mkVM m (regs vm) (pc vm) (sp vm) (running vm) (stdout vm).
Definition set_regs (r : list Z) (vm : VM) : VM :=
  mkVM (memory vm) r (pc vm) (sp vm) (running vm) (stdout vm).
Definition set_pc (p : Z) (vm : VM) : VM :=
  mkVM (memory vm) (regs vm) p (sp vm) (running vm) (stdout vm).
Definition set_sp (s : Z) (vm : VM) : VM :=
  mkVM (memory vm) (regs vm) (pc vm) s (running vm) (stdout vm).
Definition set_running (b : bool) (vm : VM) : VM :=
  mkVM (memory vm) (regs vm) (pc vm) (sp vm) b (stdout vm).
Definition print (line : string) (vm : VM) : VM :=
  mkVM (memory vm) (regs vm) (pc vm) (sp vm) (running vm)
       (stdout vm ++ [line]).

(** [VM(memory_size)] *)
Definition init (memory_size : nat) : VM :=
  mkVM (replicate memory_size x00) (replicate NUM_REGS 0) 0
       (Z.of_nat memory_size) true [].

(** [vm.memory[:len(prog)] = prog], the loader of the command line. *)
Definition load_program (prog : list byte) (vm : VM) : VM :=
  set_memory (setslice (memory vm) 0 (Z.of_nat (length prog)) prog) vm.

(** *** State and exception monad *)

Definition M (A : Type) : Type := VM -> res A * VM.

Definition ret {A} (a : A) : M A := fun vm => (Ret a, vm).

Definition bind {A B} (m : M A) (k : A -> M B) : M B :=
  fun vm =>
    match m vm with
    | (Ret a, vm') => k a vm'
    | (Raise e, vm') => (Raise e, vm')
    end.

Definition lift {A} (r : res A) : M A := fun vm => (r, vm).
Definition gets {A} (f : VM -> A) : M A := fun vm => (Ret (f vm), vm).
Definition modify (f : VM -> VM) : M unit := fun vm => (Ret tt, f vm).

Declare Scope vm_scope.
Delimit Scope vm_scope with vm.
Notation "x <- m ;; k" := (bind m (fun x => k))
  (at level 100, m at next level, right associativity) : vm_scope.
Notation "m ;; k" := (bind m (fun _ => k))
  (at level 100, right associativity) : vm_scope.
Local Open Scope vm_scope.

(** *** Register file and memory words *)

(** The expression [self.regs[i]]. *)
Definition get_reg (i : Z) : M Z :=
  rs <- gets regs ;; lift (getitem rs i).

(** The statement [self.regs[i] = v]. *)
Definition set_reg (i : Z) (v : Z) : M unit :=
  rs <- gets regs ;;
  match norm_index (length rs) i with
  | Some k => modify (set_regs (<[k:=v]> rs))
  | None => lift (Raise IndexError)
  end.

(** The expression [clamp_reg(f[3])] on an operand field. *)
Definition reg_operand (f : list byte) : M Z :=
  x <- lift (getitem f 3) ;; ret (clamp_reg (byte_val x)).

(** The expression [read_u32_be(self.memory[addr:addr+4])]. *)
Definition load_word (addr : Z) : M Z :=
  mem <- gets memory ;; lift (read_u32_be (getslice mem addr (addr + 4))).

(** The statement [self.memory[addr:addr+4] = struct.pack(">I", v)]: the
    right-hand side is evaluated first, then the slice is assigned. *)
Definition store_word (addr : Z) (v : Z) : M unit :=
  bs <- lift (pack_u32_be v) ;;
  mem <- gets memory ;;
  modify (set_memory (setslice mem addr (addr + 4) bs)).

(** *** Instruction implementations *)

(** Data movement *)

Definition op_ld (a b : list byte) : M unit :=
  addr <- lift (read_u32_be a) ;;
  reg <- reg_operand b ;;
  v <- load_word addr ;;
  set_reg reg v.

Definition op_lc (a b : list byte) : M unit :=
  const <- lift (read_u32_be a) ;;
  reg <- reg_operand b ;;
  set_reg reg const.

Definition op_dr (a b : list byte) : M unit :=
  reg <- reg_operand a ;;
  addr <- lift (read_u32_be b) ;;
  v <- get_reg reg ;;
  store_word addr v.

Definition op_cpy (a b : list byte) : M unit :=
  src <- reg_operand a ;;
  dst <- reg_operand b ;;
  v <- get_reg src ;;
  set_reg dst v.

(** Bitwise operations (results -> r15) *)

Definition op_or (a b : list byte) : M unit :=
  r <- reg_operand a ;;
  s <- reg_operand b ;;
  x <- get_reg r ;;
  y <- get_reg s ;;
  set_reg ACC (Z.lor x y).

Definition op_and (a b : list byte) : M unit :=
  r <- reg_operand a ;;
  s <- reg_operand b ;;
  x <- get_reg r ;;
  y <- get_reg s ;;
  set_reg ACC (Z.land x y).

Definition op_xor (a b : list byte) : M unit :=
  r <- reg_operand a ;;
  s <- reg_operand b ;;
  x <- get_reg r ;;
  y <- get_reg s ;;
  set_reg ACC (Z.lxor x y).

Definition op_nand (a b : list byte) : M unit :=
  r <- reg_operand a ;;
  s <- reg_operand b ;;
  x <- get_reg r ;;
  y <- get_reg s ;;
  set_reg ACC (Z.land (Z.lnot (Z.land x y)) 0xFFFFFFFF).

Definition op_nor (a b : list byte) : M unit :=
  r <- reg_operand a ;;
  s <- reg_operand b ;;
  x <- get_reg r ;;
  y <- get_reg s ;;
  set_reg ACC (Z.land (Z.lnot (Z.lor x y)) 0xFFFFFFFF).

Definition op_not (a b : list byte) : M unit :=
  r <- reg_operand a ;;
  x <- get_reg r ;;
  set_reg ACC (Z.land (Z.lnot x) 0xFFFFFFFF).

(** Arithmetic operations *)

Definition op_add (a b : list byte) : M unit :=
  r <- reg_operand a ;;
  s <- reg_operand b ;;
  x <- get_reg r ;;
  y <- get_reg s ;;
  set_reg ACC (Z.land (x + y) 0xFFFFFFFF).

Definition op_sub (a b : list byte) : M unit :=
  r <- reg_operand a ;;
  s <- reg_operand b ;;
  x <- get_reg r ;;
  y <- get_reg s ;;
  set_reg ACC (Z.land (x - y) 0xFFFFFFFF).

Definition op_mul (a b : list byte) : M unit :=
  r <- reg_operand a ;;
  s <- reg_operand b ;;
  x <- get_reg r ;;
  y <- get_reg s ;;
  set_reg ACC (Z.land (x * y) 0xFFFFFFFF).

(** [//] is floor division; the divisor [max(_, 1)] is positive, where
    [Z.div] is floor division too. *)
Definition op_div (a b : list byte) : M unit :=
  r <- reg_operand a ;;
  s <- reg_operand b ;;
  x <- get_reg r ;;
  y <- get_reg s ;;
  set_reg ACC (x / Z.max y 1).

Definition op_exp (a b : list byte) : M unit :=
  r <- reg_operand a ;;
  s <- reg_operand b ;;
  x <- get_reg r ;;
  y <- get_reg s ;;
  v <- lift (pow3 x y (2 ^ 32)) ;;
  set_reg ACC v.

(** Control flow *)

Definition op_jmp (a b : list byte) : M unit :=
  addr <- lift (read_u32_be a) ;;
  modify (set_pc addr).

Definition op_jmr (a b : list byte) : M unit :=
  offset <- lift (read_s32_be a) ;;
  p <- gets pc ;;
  modify (set_pc (p + offset)).

Definition op_cmp (a b : list byte) : M unit :=
  reg <- reg_operand a ;;
  addr <- lift (read_u32_be b) ;;
  v <- get_reg reg ;;
  if negb (v =? 0) then modify (set_pc addr) else ret tt.

Definition op_cmr (a b : list byte) : M unit :=
  reg <- reg_operand a ;;
  offset <- lift (read_s32_be b) ;;
  v <- get_reg reg ;;
  if negb (v =? 0) then p <- gets pc ;; modify (set_pc (p + offset))
  else ret tt.

(** Stack operations *)

Definition op_psh (a b : list byte) : M unit :=
  reg <- reg_operand a ;;
  s <- gets sp ;;
  modify (set_sp (s - 4)) ;;
  v <- get_reg reg ;;
  s' <- gets sp ;;
  store_word s' v.

Definition op_pop (a b : list byte) : M unit :=
  reg <- reg_operand a ;;
  s <- gets sp ;;
  v <- load_word s ;;
  set_reg reg v ;;
  s' <- gets sp ;;
  modify (set_sp (s' + 4)).

Definition op_movsp (a b : list byte) : M unit :=
  offset <- lift (read_s32_be a) ;;
  s <- gets sp ;;
  modify (set_sp (s + offset)).

(** Function calls *)

Definition op_call (a b : list byte) : M unit :=
  addr <- lift (read_u32_be a) ;;
  s <- gets sp ;;
  modify (set_sp (s - 4)) ;;
  p <- gets pc ;;
  s' <- gets sp ;;
  store_word s' p ;;
  modify (set_pc addr).

Definition op_ret (a b : list byte) : M unit :=
  s <- gets sp ;;
  v <- load_word s ;;
  modify (set_pc v) ;;
  s' <- gets sp ;;
  modify (set_sp (s' + 4)).

(** Comparisons *)

Definition _set_acc (cond : bool) : M unit :=
  set_reg ACC (if cond then 0xFFFFFFFF else 0).

Definition op_gt (a b : list byte) : M unit :=
  r <- reg_operand a ;;
  s <- reg_operand b ;;
  x <- get_reg r ;;
  y <- get_reg s ;;
  _set_acc (x >? y).

Definition op_lt (a b : list byte) : M unit :=
  r <- reg_operand a ;;
  s <- reg_operand b ;;
  x <- get_reg r ;;
  y <- get_reg s ;;
  _set_acc (x <? y).

Definition op_eq (a b : list byte) : M unit :=
  r <- reg_operand a ;;
  s <- reg_operand b ;;
  x <- get_reg r ;;
  y <- get_reg s ;;
  _set_acc (x =? y).

Definition op_ne (a b : list byte) : M unit :=
  r <- reg_operand a ;;
  s <- reg_operand b ;;
  x <- get_reg r ;;
  y <- get_reg s ;;
  _set_acc (negb (x =? y)).

Definition op_ge (a b : list byte) : M unit :=
  r <- reg_operand a ;;
  s <- reg_operand b ;;
  x <- get_reg r ;;
  y <- get_reg s ;;
  _set_acc (x >=? y).

Definition op_le (a b : list byte) : M unit :=
  r <- reg_operand a ;;
  s <- reg_operand b ;;
  x <- get_reg r ;;
  y <- get_reg s ;;
  _set_acc (x <=? y).

(** Indirect memory *)

Definition op_ldi (a b : list byte) : M unit :=
  addr_reg <- reg_operand a ;;
  dst_reg <- reg_operand b ;;
  addr <- get_reg addr_reg ;;
  v <- load_word addr ;;
  set_reg dst_reg v.

Definition op_sti (a b : list byte) : M unit :=
  src_reg <- reg_operand a ;;
  addr_reg <- reg_operand b ;;
  addr <- get_reg addr_reg ;;
  v <- get_reg src_reg ;;
  store_word addr v.

(** *** The dispatch table *)

(** One name per bound method stored in [self.ops]. *)
Inductive handler : Type :=
| LD | LC | DR | CPY
| OR | AND | XOR | NAND | NOR | NOT
| ADD | SUB | MUL | DIV | EXP
| JMP | JMR | CMP | CMR
| PSH | POP | MOVSP | CALL | RET
| GT | LT | EQ | NE | GE | LE
| LDI | STI.

(** The dictionary [self.ops]. *)
Definition ops : list (Z * handler) :=
  [ (0x0001, LD); (0x0002, LC); (0x0003, DR); (0x0004, CPY);
    (0x0005, OR); (0x0006, AND); (0x0007, XOR); (0x0008, NAND);
    (0x0009, NOR); (0x000A, NOT); (0x000B, ADD); (0x000C, SUB);
    (0x000D, MUL); (0x000E, DIV); (0x000F, EXP);
    (0x0020, JMP); (0x0021, JMR); (0x0022, CMP); (0x0023, CMR);
    (0x0030, PSH); (0x0031, POP); (0x0032, MOVSP); (0x0033, CALL);
    (0x0034, RET);
    (0x0040, GT); (0x0041, LT); (0x0042, EQ); (0x0043, NE);
    (0x0044, GE); (0x0045, LE);
    (0x0050, LDI); (0x0051, STI) ].

(** [self.ops.get(opcode, None)] *)
Definition ops_get (opcode : Z) : option handler :=
  snd <$> List.find (fun e => fst e =? opcode) ops.

(** Calling the bound method. *)
Definition call (h : handler) : list byte -> list byte -> M unit :=
  match h with
  | LD => op_ld | LC => op_lc | DR => op_dr | CPY => op_cpy
  | OR => op_or | AND => op_and | XOR => op_xor | NAND => op_nand
  | NOR => op_nor | NOT => op_not
  | ADD => op_add | SUB => op_sub | MUL => op_mul | DIV => op_div
  | EXP => op_exp
  | JMP => op_jmp | JMR => op_jmr | CMP => op_cmp | CMR => op_cmr
  | PSH => op_psh | POP => op_pop | MOVSP => op_movsp
  | CALL => op_call | RET => op_ret
  | GT => op_gt | LT => op_lt | EQ => op_eq | NE => op_ne
  | GE => op_ge | LE => op_le
  | LDI => op_ldi | STI => op_sti
  end.

(** *** Fetch and the run loop *)

(** [fetch]: [None] stands for the triple [(None, None, None)]. *)
Definition fetch : M (option (Z * list byte * list byte)) :=
  p <- gets pc ;;
  mem <- gets memory ;;
  if p + 10 >? Z.of_nat (length mem) then
    modify (set_running false) ;;
    ret None
  else
    let instr := getslice mem p (p + 10) in
    i0 <- lift (getitem instr 0) ;;
    i1 <- lift (getitem instr 1) ;;
    let opcode := Z.lor (Z.shiftl (byte_val i0) 8) (byte_val i1) in
    ret (Some (opcode, getslice instr 2 6, getslice instr 6 10)).

(** The line printed for an opcode without handler. *)
Definition unknown_opcode_line (opcode p : Z) : string :=
  ("Unknown opcode " ++ format_04X opcode ++ " at " ++ format_d (p - 10))%string.

(** The body of the loop after a successful fetch: advance, look up,
    dispatch. *)
Definition dispatch (opcode : Z) (a b : list byte) : M unit :=
  p <- gets pc ;;
  modify (set_pc (p + 10)) ;;
  match ops_get opcode with
  | None =>
      p' <- gets pc ;;
      modify (print (unknown_opcode_line opcode p')) ;;
      modify (set_running false)
  | Some h => call h a b
  end.

(** One iteration of the [while] body; [false] is [break]. *)
Definition cycle : M bool :=
  f <- fetch ;;
  match f with
  | None => ret false
  | Some (opcode, a, b) => dispatch opcode a b ;; ret true
  end.

(** How a run ends: the loop is left, an exception propagates out of
    [run], or the fuel of the model is used up. *)
Inductive ending : Type :=
| Finished
| Uncaught (e : exn)
| OutOfFuel.

(** [run]: [while self.running: ...], unrolled at most [fuel] times. *)
Fixpoint run (fuel : nat) (vm : VM) : ending * VM :=
  if running vm then
    match fuel with
    | O => (OutOfFuel, vm)
    | S fuel' =>
        match cycle vm with
        | (Ret true, vm') => run fuel' vm'
        | (Ret false, vm') => (Finished, vm')
        | (Raise e, vm') => (Uncaught e, vm')
        end
    end
  else (Finished, vm).

(** *** Operand kinds

    What each instruction implementation does with its two fields: decode a
    register index from the last byte, or something else (an address, a
    constant, an offset, or nothing). *)
Definition reg_in_a (h : handler) : bool :=
  match h with
  | LD | LC | JMP | JMR | MOVSP | CALL | RET => false
  | _ => true
  end.

Definition reg_in_b (h : handler) : bool :=
  match h with
  | LD | LC | CPY | OR | AND | XOR | NAND | NOR
  | ADD | SUB | MUL | DIV | EXP
  | GT | LT | EQ | NE | GE | LE | LDI | STI => true
  | _ => false
  end.

(** The instructions whose result goes to the accumulator. *)
Definition writes_acc (h : handler) : bool :=
  match h with
  | OR | AND | XOR | NAND | NOR | NOT
  | ADD | SUB | MUL | DIV | EXP
  | GT | LT | EQ | NE | GE | LE => true
  | _ => false
  end.

(** *** Well-formed states *)

Definition u32 (v : Z) : Prop := 0 <= v < 2 ^ 32.

(** Sixteen registers, each an unsigned 32-bit value. *)
Definition wf (vm : VM) : Prop :=
  length (regs vm) = NUM_REGS /\ Forall u32 (regs vm).

End Machine.

(** ** Vocabulary of the statements *)

Module Spec.
Import Py Machine.

(** The register an operand field names: its last byte, clamped. *)
Definition reg_of (f : list byte) : nat :=
  Z.to_nat (clamp_reg (byte_val (nth 3 f x00))).

(** Content of register [k]. *)
Definition reg_val (vm : VM) (k : nat) : Z := default 0 (regs vm !! k).

(** Content of the accumulator. *)
Definition acc (vm : VM) : Z := reg_val vm 15.

(** [len(self.memory)] *)
Definition capacity (vm : VM) : Z := Z.of_nat (length (memory vm)).

(** The instructions that read a memory word, with the address they read. *)
Definition load_addr (h : handler) (a : list byte) (vm : VM) : option Z :=
  match h with
  | LD => match read_u32_be a with Ret x => Some x | Raise _ => None end
  | LDI => Some (reg_val vm (reg_of a))
  | POP | RET => Some (sp vm)
  | _ => None
  end.

(** The six comparison instructions and the relation each one tests. *)
Definition is_comparison (h : handler) : bool :=
  match h with GT | LT | EQ | NE | GE | LE => true | _ => false end.

Definition holds (h : handler) (x y : Z) : Prop :=
  match h with
  | GT => x > y
  | LT => x < y
  | EQ => x = y
  | NE => x <> y
  | GE => x >= y
  | LE => x <= y
  | _ => False
  end.

(** Two states that differ at most in the accumulator. *)
Definition same_but_acc (vm1 vm2 : VM) : Prop :=
  memory vm1 = memory vm2 /\ pc vm1 = pc vm2 /\ sp vm1 = sp vm2 /\
  running vm1 = running vm2 /\ stdout vm1 = stdout vm2 /\
  length (regs vm1) = length (regs vm2) /\
  forall k : nat, k <> 15%nat -> regs vm1 !! k = regs vm2 !! k.

(** Partial-correctness triples over the interpreter monad; total, since
    every computation of [M] returns. *)
Definition triple {A} (P : VM -> Prop) (m : M A) (Q : res A -> VM -> Prop) : Prop :=
  forall vm, P vm -> Q (fst (m vm)) (snd (m vm)).

(** A computation that cannot tell two states differing in the accumulator
    apart, and keeps them so. *)
Definition blind {A} (m : M A) : Prop :=
  forall vm1 vm2, same_but_acc vm1 vm2 ->
    fst (m vm1) = fst (m vm2) /\ same_but_acc (snd (m vm1)) (snd (m vm2)).

(** A computation that leaves the accumulator as it is. *)
Definition spares_acc {A} (m : M A) : Prop :=
  forall vm, regs (snd (m vm)) !! 15%nat = regs vm !! 15%nat.

(** A computation that neither prints nor touches the running flag. *)
Definition quiet {A} (m : M A) : Prop :=
  forall vm,
    running (snd (m vm)) = running vm /\ stdout (snd (m vm)) = stdout vm.

(** Outcome of a handler seen from the loop. *)
Definition after_call (r : res unit * VM) : res bool * VM :=
  match r with
  | (Ret _, vm') => (Ret true, vm')
  | (Raise e, vm') => (Raise e, vm')
  end.

(** The handlers that can raise on a well-formed machine: the four that
    read a memory word, and CALL, which packs the program counter. *)
Definition may_raise (h : handler) : bool :=
  match h with
  | LD | LDI | POP | RET | CALL => true
  | _ => false
  end.

(** On a well-formed state the computation keeps the state well formed,
    returns only values in [Q] and raises only exceptions in [E]. *)
Definition outcome {A} (E : exn -> Prop) (Q : A -> Prop) (m : M A) : Prop :=
  forall vm, wf vm ->
    wf (snd (m vm)) /\
    match fst (m vm) with Ret x => Q x | Raise e => E e end.

(** A computation after which memory is at least as long as before. *)
Definition grows {A} (m : M A) : Prop :=
  forall vm, capacity vm <= capacity (snd (m vm)).

(** The key under which [self.ops] stores each handler. *)
Definition opcode_of (h : handler) : Z :=
  match h with
  | LD => 0x0001 | LC => 0x0002 | DR => 0x0003 | CPY => 0x0004
  | OR => 0x0005 | AND => 0x0006 | XOR => 0x0007 | NAND => 0x0008
  | NOR => 0x0009 | NOT => 0x000A
  | ADD => 0x000B | SUB => 0x000C | MUL => 0x000D | DIV => 0x000E
  | EXP => 0x000F
  | JMP => 0x0020 | JMR => 0x0021 | CMP => 0x0022 | CMR => 0x0023
  | PSH => 0x0030 | POP => 0x0031 | MOVSP => 0x0032
  | CALL => 0x0033 | RET => 0x0034
  | GT => 0x0040 | LT => 0x0041 | EQ => 0x0042 | NE => 0x0043
  | GE => 0x0044 | LE => 0x0045
  | LDI => 0x0050 | STI => 0x0051
  end.

(** The two relative jumps. *)
Definition is_relative_jump (h : handler) : bool :=
  match h with JMR | CMR => true | _ => false end.

End Spec.

(** * Properties *)

Import Py Machine Spec.
Local Open Scope vm_scope.

(** ** Bytes and words *)

Lemma byte_val_range (b : byte) : 0 <= byte_val b < 256.
Proof.
  unfold byte_val. pose proof (Byte.to_N_bounded b). lia.
Qed.

Lemma byte_val_of_Z (z : Z) : byte_val (byte_of_Z z) = z mod 256.
Proof.
  unfold byte_val, byte_of_Z.
  pose proof (Z.mod_pos_bound z 256 ltac:(lia)) as Hm.
  destruct (Byte.of_N (Z.to_N (z mod 256))) as [b|] eqn:E.
  - apply Byte.to_of_N in E. rewrite E. lia.
  - apply Byte.of_N_None_iff in E. lia.
Qed.

Lemma read_u32_be_range (bs : list byte) (v : Z) :
  read_u32_be bs = Ret v -> u32 v.
Proof.
  destruct bs as [|b0 [|b1 [|b2 [|b3 [|]]]]]; simpl; try discriminate.
  intros [= <-].
  pose proof (byte_val_range b0). pose proof (byte_val_range b1).
  pose proof (byte_val_range b2). pose proof (byte_val_range b3).
  unfold u32. change (2 ^ 32) with 4294967296. lia.
Qed.

Lemma read_u32_be_length (bs : list byte) :
  length bs = 4%nat -> exists v, read_u32_be bs = Ret v.
Proof.
  destruct bs as [|b0 [|b1 [|b2 [|b3 [|]]]]]; simpl; try discriminate.
  eauto.
Qed.

Lemma read_u32_be_short (bs : list byte) :
  length bs <> 4%nat -> read_u32_be bs = Raise StructError.
Proof.
  destruct bs as [|b0 [|b1 [|b2 [|b3 [|]]]]]; simpl; try reflexivity.
  intros []. reflexivity.
Qed.

Lemma pack_u32_be_length (v : Z) (bs : list byte) :
  pack_u32_be v = Ret bs -> length bs = 4%nat.
Proof.
  unfold pack_u32_be. destruct (_ && _); [|discriminate].
  intros [= <-]. reflexivity.
Qed.

(** Packing then unpacking an unsigned 32-bit value. *)
Lemma read_pack_u32 (v : Z) :
  u32 v -> exists bs, pack_u32_be v = Ret bs /\ read_u32_be bs = Ret v.
Proof.
  unfold u32. change (2 ^ 32) with 4294967296. intros Hv.
  unfold pack_u32_be.
  replace ((0 <=? v) && (v <=? 0xFFFFFFFF)) with true
    by (symmetry; apply andb_true_iff; split; lia).
  eexists. split; [reflexivity|]. unfold read_u32_be.
  rewrite !byte_val_of_Z. f_equal.
  pose proof (Z.div_mod v 256 ltac:(lia)).
  pose proof (Z.div_mod (v / 256) 256 ltac:(lia)).
  pose proof (Z.div_mod (v / 256 / 256) 256 ltac:(lia)).
  rewrite !Z.div_div in * by lia.
  change (256 * 256 * 256) with 16777216 in *.
  change (256 * 256) with 65536 in *.
  change 0x1000000 with 16777216. change 0x10000 with 65536.
  change 0x100 with 256.
  assert (v / 16777216 mod 256 = v / 16777216).
  { apply Z.mod_small. split; [apply Z.div_pos; lia|].
    apply Z.div_lt_upper_bound; lia. }
  lia.
Qed.

Lemma mask_is_mod (x : Z) : Z.land x 0xFFFFFFFF = x mod 2 ^ 32.
Proof. change 0xFFFFFFFF with (Z.ones 32). apply Z.land_ones. lia. Qed.

(** ** The three-argument power *)

Lemma pow_mod_pos_spec (base : Z) (e : positive) (m : Z) :
  0 < m -> pow_mod_pos base e m = base ^ Zpos e mod m.
Proof.
  intros Hm. induction e as [e IH|e IH|]; simpl pow_mod_pos.
  - rewrite IH. rewrite Pos2Z.inj_xI.
    rewrite Z.pow_add_r, Z.pow_1_r by lia.
    replace (2 * Z.pos e) with (Z.pos e + Z.pos e) by lia.
    rewrite Z.pow_add_r by lia.
    set (t := base ^ Z.pos e).
    rewrite <- (Z.mul_mod t t m) by lia.
    rewrite Z.mul_mod_idemp_l by lia. reflexivity.
  - rewrite IH. rewrite Pos2Z.inj_xO.
    replace (2 * Z.pos e) with (Z.pos e + Z.pos e) by lia.
    rewrite Z.pow_add_r by lia.
    rewrite <- Z.mul_mod by lia. reflexivity.
  - rewrite Z.pow_1_r. reflexivity.
Qed.

Lemma pow3_spec (base e m : Z) :
  0 <= e -> 0 < m -> pow3 base e m = Ret (base ^ e mod m).
Proof.
  intros He Hm. destruct e as [|p|p]; simpl; [reflexivity| |lia].
  f_equal. apply pow_mod_pos_spec. exact Hm.
Qed.

(** ** Slices *)

Lemma adjust_range (n i : Z) : 0 <= n -> 0 <= adjust n i <= n.
Proof. unfold adjust. destruct (i <? 0) eqn:E; lia. Qed.

Lemma slice_lo_le {A} (l : list A) (i : Z) : (slice_lo l i <= length l)%nat.
Proof.
  unfold slice_lo.
  pose proof (adjust_range (Z.of_nat (length l)) i ltac:(lia)). lia.
Qed.

Lemma slice_hi_le {A} (l : list A) (i j : Z) : (slice_hi l i j <= length l)%nat.
Proof.
  unfold slice_hi.
  pose proof (adjust_range (Z.of_nat (length l)) i ltac:(lia)).
  pose proof (adjust_range (Z.of_nat (length l)) j ltac:(lia)). lia.
Qed.

Lemma slice_lo_hi {A} (l : list A) (i j : Z) : (slice_lo l i <= slice_hi l i j)%nat.
Proof. unfold slice_lo, slice_hi. lia. Qed.

Lemma getslice_length {A} (l : list A) (i j : Z) :
  length (getslice l i j) = (slice_hi l i j - slice_lo l i)%nat.
Proof.
  unfold getslice. rewrite length_take, length_drop.
  pose proof (slice_hi_le l i j). lia.
Qed.

Lemma slice_inside {A} (l : list A) (i j : Z) :
  0 <= i <= j -> j <= Z.of_nat (length l) ->
  slice_lo l i = Z.to_nat i /\ slice_hi l i j = Z.to_nat j.
Proof.
  intros Hij Hj. unfold slice_lo, slice_hi, adjust.
  destruct (i <? 0) eqn:Ei; [lia|].
  destruct (j <? 0) eqn:Ej; [lia|].
  split; f_equal; lia.
Qed.

(** A 4-byte read whose span leaves the sequence yields fewer than four
    bytes, wherever it starts. *)
Lemma getslice_outside {A} (l : list A) (i : Z) :
  i + 4 > Z.of_nat (length l) -> (length (getslice l i (i + 4)) < 4)%nat.
Proof.
  intros H. rewrite getslice_length. unfold slice_lo, slice_hi, adjust.
  destruct (i <? 0) eqn:Ei; destruct (i + 4 <? 0) eqn:Ej; lia.
Qed.

Lemma getslice_inside_length {A} (l : list A) (i k : Z) :
  0 <= i -> 0 <= k -> i + k <= Z.of_nat (length l) ->
  length (getslice l i (i + k)) = Z.to_nat k.
Proof.
  intros Hi Hk H. rewrite getslice_length.
  destruct (slice_inside l i (i + k)) as [-> ->]; lia.
Qed.

Lemma setslice_length {A} (l v : list A) (i j : Z) :
  length (setslice l i j v)
  = (slice_lo l i + length v + (length l - slice_hi l i j))%nat.
Proof.
  unfold setslice. rewrite !length_app, length_take, length_drop.
  pose proof (slice_lo_le l i). lia.
Qed.

(** Writing four bytes inside the sequence keeps its length, and reading the
    same span returns them. *)
Lemma setslice_inside {A} (l v : list A) (i : Z) :
  0 <= i -> i + 4 <= Z.of_nat (length l) -> length v = 4%nat ->
  length (setslice l i (i + 4) v) = length l /\
  getslice (setslice l i (i + 4) v) i (i + 4) = v.
Proof.
  intros Hi H Hv.
  assert (Hlen : length (setslice l i (i + 4) v) = length l).
  { rewrite setslice_length.
    destruct (slice_inside l i (i + 4)) as [-> ->]; lia. }
  split; [exact Hlen|].
  unfold getslice.
  destruct (slice_inside (setslice l i (i + 4) v) i (i + 4)) as [-> ->];
    [lia|lia|].
  unfold setslice.
  destruct (slice_inside l i (i + 4)) as [-> ->]; [lia|lia|].
  rewrite drop_app_length'; [|rewrite length_take; lia].
  replace (Z.to_nat (i + 4) - Z.to_nat i)%nat with (length v) by lia.
  apply take_app_length.
Qed.

(** ** The monad *)

Lemma bind_ret_eq {A B} (m : M A) (k : A -> M B) vm a vm' :
  m vm = (Ret a, vm') -> bind m k vm = k a vm'.
Proof. unfold bind. intros ->. reflexivity. Qed.

Lemma bind_raise_eq {A B} (m : M A) (k : A -> M B) vm e vm' :
  m vm = (Raise e, vm') -> bind m k vm = (Raise e, vm').
Proof. unfold bind. intros ->. reflexivity. Qed.

(** ** Registers *)

Lemma clamp_reg_range (x : byte) : 0 <= clamp_reg (byte_val x) <= 14.
Proof. unfold clamp_reg. pose proof (byte_val_range x). lia. Qed.

Lemma reg_of_le (f : list byte) : (reg_of f <= 14)%nat.
Proof.
  unfold reg_of. pose proof (clamp_reg_range (nth 3 f x00)). lia.
Qed.

Lemma reg_operand_eq (f : list byte) vm :
  length f = 4%nat -> reg_operand f vm = (Ret (Z.of_nat (reg_of f)), vm).
Proof.
  destruct f as [|b0 [|b1 [|b2 [|b3 [|]]]]]; simpl; try discriminate.
  intros _. unfold reg_operand, bind, lift, ret, reg_of. simpl.
  pose proof (clamp_reg_range b3). do 2 f_equal. lia.
Qed.

Lemma reg_lookup vm (k : nat) :
  length (regs vm) = 16%nat -> (k <= 15)%nat ->
  regs vm !! k = Some (reg_val vm k).
Proof.
  intros Hl Hk. unfold reg_val.
  destruct (regs vm !! k) eqn:E; [reflexivity|].
  apply lookup_ge_None in E. lia.
Qed.

Lemma norm_index_nat (n k : nat) :
  (k < n)%nat -> norm_index n (Z.of_nat k) = Some k.
Proof.
  intros H. unfold norm_index.
  destruct (0 <=? Z.of_nat k) eqn:E0; [|lia].
  destruct (Z.of_nat k <? Z.of_nat n) eqn:E1; [|lia].
  f_equal. lia.
Qed.

Lemma get_reg_eq vm (k : nat) :
  length (regs vm) = 16%nat -> (k <= 15)%nat ->
  get_reg (Z.of_nat k) vm = (Ret (reg_val vm k), vm).
Proof.
  intros Hl Hk. unfold get_reg, bind, gets, lift, getitem.
  rewrite Hl, norm_index_nat by lia.
  rewrite reg_lookup by assumption. reflexivity.
Qed.

Lemma set_reg_eq vm (k : nat) (v : Z) :
  length (regs vm) = 16%nat -> (k <= 15)%nat ->
  set_reg (Z.of_nat k) v vm = (Ret tt, set_regs (<[k:=v]> (regs vm)) vm).
Proof.
  intros Hl Hk. unfold set_reg, bind, gets, modify.
  rewrite Hl, norm_index_nat by lia. reflexivity.
Qed.

Lemma set_acc_eq vm (v : Z) :
  length (regs vm) = 16%nat ->
  set_reg ACC v vm = (Ret tt, set_regs (<[15%nat:=v]> (regs vm)) vm).
Proof. intros Hl. apply (set_reg_eq vm 15 v Hl). lia. Qed.

Lemma reg_val_insert_eq vm (k : nat) (v : Z) :
  (k < length (regs vm))%nat ->
  reg_val (set_regs (<[k:=v]> (regs vm)) vm) k = v.
Proof.
  intros Hk. unfold reg_val. simpl.
  rewrite list_lookup_insert_eq by assumption. reflexivity.
Qed.

Lemma reg_val_insert_ne vm (k j : nat) (v : Z) :
  k <> j -> reg_val (set_regs (<[k:=v]> (regs vm)) vm) j = reg_val vm j.
Proof.
  intros Hk. unfold reg_val. simpl.
  rewrite list_lookup_insert_ne by assumption. reflexivity.
Qed.

(** ** Memory words *)

Lemma load_word_eq vm (addr : Z) :
  load_word addr vm
  = (read_u32_be (getslice (memory vm) addr (addr + 4)), vm).
Proof. reflexivity. Qed.

Lemma load_word_outside vm (addr : Z) :
  addr + 4 > capacity vm -> load_word addr vm = (Raise StructError, vm).
Proof.
  intros H. rewrite load_word_eq. f_equal.
  apply read_u32_be_short.
  pose proof (getslice_outside (memory vm) addr H). lia.
Qed.

Lemma store_word_eq vm (addr v : Z) :
  u32 v ->
  exists bs, pack_u32_be v = Ret bs /\ read_u32_be bs = Ret v /\
    store_word addr v vm
    = (Ret tt, set_memory (setslice (memory vm) addr (addr + 4) bs) vm).
Proof.
  intros Hv. destruct (read_pack_u32 v Hv) as (bs & Hp & Hr).
  exists bs. split; [exact Hp|]. split; [exact Hr|].
  unfold store_word, bind, lift, gets, modify. rewrite Hp. reflexivity.
Qed.

(** A word stored inside memory is read back, and the capacity is kept. *)
Lemma store_then_load vm (addr v : Z) :
  u32 v -> 0 <= addr -> addr + 4 <= capacity vm ->
  exists vm', store_word addr v vm = (Ret tt, vm') /\
    regs vm' = regs vm /\ pc vm' = pc vm /\ sp vm' = sp vm /\
    running vm' = running vm /\ stdout vm' = stdout vm /\
    capacity vm' = capacity vm /\
    load_word addr vm' = (Ret v, vm').
Proof.
  intros Hv Ha Hc. destruct (store_word_eq vm addr v Hv) as (bs & Hp & Hr & Hs).
  eexists. split; [exact Hs|].
  destruct (setslice_inside (memory vm) bs addr Ha Hc
              (pack_u32_be_length _ _ Hp)) as [Hlen Hget].
  repeat split; try reflexivity.
  - unfold capacity. simpl. rewrite Hlen. reflexivity.
  - rewrite load_word_eq. simpl. rewrite Hget, Hr. reflexivity.
Qed.

(** ** Two-register instructions *)

Lemma wf_length vm : wf vm -> length (regs vm) = 16%nat.
Proof. intros [H _]. exact H. Qed.

Lemma wf_reg_val vm (k : nat) : wf vm -> u32 (reg_val vm k).
Proof.
  intros [_ H]. unfold reg_val.
  destruct (regs vm !! k) as [v|] eqn:E; simpl.
  - exact (proj1 (Forall_lookup _ _) H k v E).
  - unfold u32. lia.
Qed.

(** The common prefix of the two-operand handlers: decode both register
    indices, read both registers, continue with the two values. *)
Lemma binop_eq (K : Z -> Z -> M unit) (a b : list byte) vm :
  length a = 4%nat -> length b = 4%nat -> length (regs vm) = 16%nat ->
  (r <- reg_operand a ;; s <- reg_operand b ;;
   x <- get_reg r ;; y <- get_reg s ;; K x y) vm
  = K (reg_val vm (reg_of a)) (reg_val vm (reg_of b)) vm.
Proof.
  intros Ha Hb Hl.
  pose proof (reg_of_le a). pose proof (reg_of_le b).
  erewrite bind_ret_eq by (apply reg_operand_eq; assumption).
  erewrite bind_ret_eq by (apply reg_operand_eq; assumption).
  erewrite bind_ret_eq by (apply get_reg_eq; [assumption|lia]).
  erewrite bind_ret_eq by (apply get_reg_eq; [assumption|lia]).
  reflexivity.
Qed.

(** C9 (comparisons): for every pair of register values, each of GT, LT,
    EQ, NE, GE, LE returns normally and changes nothing but the
    accumulator, which receives 0xFFFFFFFF when the comparison of the two
    values holds and 0 when it does not; no other value is ever written. *)
Theorem comparison_sets_all_ones_or_zero (h : handler) (a b : list byte) (vm : VM) :
  is_comparison h = true ->
  length a = 4%nat -> length b = 4%nat -> length (regs vm) = 16%nat ->
  exists v,
    call h a b vm = (Ret tt, set_regs (<[15%nat:=v]> (regs vm)) vm) /\
    (holds h (reg_val vm (reg_of a)) (reg_val vm (reg_of b)) -> v = 0xFFFFFFFF) /\
    (~ holds h (reg_val vm (reg_of a)) (reg_val vm (reg_of b)) -> v = 0) /\
    (v = 0xFFFFFFFF \/ v = 0).
Proof.
  intros Hc Ha Hb Hl.
  set (x := reg_val vm (reg_of a)). set (y := reg_val vm (reg_of b)).
  destruct h; try discriminate Hc; simpl call; simpl holds;
    [ exists (if x >? y then 0xFFFFFFFF else 0)
    | exists (if x <? y then 0xFFFFFFFF else 0)
    | exists (if x =? y then 0xFFFFFFFF else 0)
    | exists (if negb (x =? y) then 0xFFFFFFFF else 0)
    | exists (if x >=? y then 0xFFFFFFFF else 0)
    | exists (if x <=? y then 0xFFFFFFFF else 0) ];
    (split;
     [ unfold op_gt, op_lt, op_eq, op_ne, op_ge, op_le;
       rewrite binop_eq by assumption; unfold _set_acc;
       apply set_acc_eq; assumption
     | ]).
  - destruct (Z.gtb_spec x y); repeat split; intros; try lia; auto.
  - destruct (Z.ltb_spec x y); repeat split; intros; try lia; auto.
  - destruct (Z.eqb_spec x y); simpl; repeat split; intros; try lia; auto.
  - destruct (Z.eqb_spec x y); simpl; repeat split; intros; try lia; auto;
      contradiction.
  - destruct (Z.geb_spec x y); repeat split; intros; try lia; auto.
  - destruct (Z.leb_spec x y); repeat split; intros; try lia; auto.
Qed.

Lemma comparison_sets_all_ones_or_zero_witness :
  exists v,
    call GE [x00; x00; x00; x03] [x00; x00; x00; x03] (init 16)
    = (Ret tt, set_regs (<[15%nat:=v]> (regs (init 16))) (init 16)) /\
    (v = 0xFFFFFFFF \/ v = 0).
Proof.
  destruct (comparison_sets_all_ones_or_zero GE
              [x00; x00; x00; x03] [x00; x00; x00; x03] (init 16))
    as (v & H1 & _ & _ & H4); try reflexivity.
  exists v. split; assumption.
Defined.

(** C4 (wrapping arithmetic): ADD, SUB and MUL return normally and write
    (r op s) mod 2^32 to the accumulator, EXP writes r^s mod 2^32; nothing
    else changes and no overflow is trapped. *)
Theorem arithmetic_wraps_mod_2_32 (a b : list byte) (vm : VM) :
  length a = 4%nat -> length b = 4%nat -> wf vm ->
  call ADD a b vm
  = (Ret tt, set_regs (<[15%nat:=(reg_val vm (reg_of a) + reg_val vm (reg_of b)) mod 2 ^ 32]> (regs vm)) vm) /\
  call SUB a b vm
  = (Ret tt, set_regs (<[15%nat:=(reg_val vm (reg_of a) - reg_val vm (reg_of b)) mod 2 ^ 32]> (regs vm)) vm) /\
  call MUL a b vm
  = (Ret tt, set_regs (<[15%nat:=(reg_val vm (reg_of a) * reg_val vm (reg_of b)) mod 2 ^ 32]> (regs vm)) vm) /\
  call EXP a b vm
  = (Ret tt, set_regs (<[15%nat:=(reg_val vm (reg_of a) ^ reg_val vm (reg_of b)) mod 2 ^ 32]> (regs vm)) vm).
Proof.
  intros Ha Hb Hwf. pose proof (wf_length vm Hwf) as Hl.
  simpl call. unfold op_add, op_sub, op_mul, op_exp.
  rewrite !binop_eq by assumption.
  rewrite !set_acc_eq by assumption. rewrite !mask_is_mod.
  repeat split.
  pose proof (wf_reg_val vm (reg_of b) Hwf) as Hy. unfold u32 in Hy.
  unfold bind, lift. rewrite pow3_spec by lia.
  apply set_acc_eq. assumption.
Qed.

Lemma arithmetic_wraps_mod_2_32_witness :
  let vm := set_regs (<[0%nat:=0xFFFFFFFF]> (<[1%nat:=2]> (regs (init 16)))) (init 16) in
  acc (snd (call ADD [x00; x00; x00; x00] [x00; x00; x00; x01] vm))
  = (0xFFFFFFFF + 2) mod 2 ^ 32 /\
  acc (snd (call EXP [x00; x00; x00; x00] [x00; x00; x00; x01] vm))
  = (0xFFFFFFFF ^ 2) mod 2 ^ 32.
Proof.
  intros vm.
  destruct (arithmetic_wraps_mod_2_32
              [x00; x00; x00; x00] [x00; x00; x00; x01] vm)
    as (Hadd & _ & _ & Hexp); try reflexivity.
  - split; [reflexivity|]. unfold u32. repeat constructor; lia.
  - rewrite Hadd, Hexp. split; reflexivity.
Defined.

(** Wrap-around at the boundary values. *)
Example add_wraps_at_max :
  let vm := set_regs (<[0%nat:=0xFFFFFFFF]> (<[1%nat:=1]> (regs (init 16)))) (init 16) in
  acc (snd (call ADD [x00; x00; x00; x00] [x00; x00; x00; x01] vm)) = 0 /\
  acc (snd (call SUB [x00; x00; x00; x02] [x00; x00; x00; x01] vm)) = 0xFFFFFFFF /\
  acc (snd (call MUL [x00; x00; x00; x00] [x00; x00; x00; x00] vm)) = 1 /\
  acc (snd (call EXP [x00; x00; x00; x00] [x00; x00; x00; x00] vm)) = 0xFFFFFFFF /\
  acc (snd (call EXP [x00; x00; x00; x02] [x00; x00; x00; x02] vm)) = 1.
Proof. vm_compute. repeat split. Qed.

(** C3 (division): DIV returns normally and writes the floor of r divided
    by s to the accumulator, a zero divisor being replaced by 1; a state
    whose divisor is 0 gets the same quotient as one whose divisor is 1. *)
Theorem div_floor_zero_as_one (a b : list byte) (vm : VM) :
  length a = 4%nat -> length b = 4%nat -> wf vm ->
  (exists q,
     call DIV a b vm = (Ret tt, set_regs (<[15%nat:=q]> (regs vm)) vm) /\
     let d := if reg_val vm (reg_of b) =? 0 then 1 else reg_val vm (reg_of b) in
     q = reg_val vm (reg_of a) / d /\
     d * q <= reg_val vm (reg_of a) < d * q + d) /\
  (forall vm', wf vm' ->
     reg_val vm' (reg_of a) = reg_val vm (reg_of a) ->
     reg_val vm (reg_of b) = 0 -> reg_val vm' (reg_of b) = 1 ->
     fst (call DIV a b vm') = Ret tt /\
     acc (snd (call DIV a b vm')) = acc (snd (call DIV a b vm))).
Proof.
  intros Ha Hb Hwf. pose proof (wf_length vm Hwf) as Hl.
  assert (Hdiv : forall s, wf s ->
            call DIV a b s
            = (Ret tt, set_regs (<[15%nat:=reg_val s (reg_of a)
                                   / Z.max (reg_val s (reg_of b)) 1]> (regs s)) s)).
  { intros s Hs. pose proof (wf_length s Hs). simpl call. unfold op_div.
    rewrite binop_eq by assumption. apply set_acc_eq. assumption. }
  pose proof (wf_reg_val vm (reg_of b) Hwf) as Hy. unfold u32 in Hy.
  split.
  - eexists. split; [apply Hdiv; assumption|]. cbv zeta.
    destruct (Z.eqb_spec (reg_val vm (reg_of b)) 0) as [E|E].
    + rewrite E. change (Z.max 0 1) with 1. split; [reflexivity|].
      rewrite Z.div_1_r. lia.
    + replace (Z.max (reg_val vm (reg_of b)) 1) with (reg_val vm (reg_of b)) by lia.
      split; [reflexivity|].
      pose proof (Z.div_mod (reg_val vm (reg_of a)) (reg_val vm (reg_of b)) E).
      pose proof (Z.mod_pos_bound (reg_val vm (reg_of a)) (reg_val vm (reg_of b))
                    ltac:(lia)).
      lia.
  - intros vm' Hwf' Hx H0 H1.
    rewrite (Hdiv vm' Hwf'), (Hdiv vm Hwf). simpl fst. split; [reflexivity|].
    unfold acc. simpl snd.
    rewrite !reg_val_insert_eq by (rewrite wf_length by assumption; lia).
    rewrite Hx, H0, H1. reflexivity.
Qed.

Lemma div_floor_zero_as_one_witness :
  let vm0 := set_regs (<[0%nat:=7]> (regs (init 16))) (init 16) in
  let vm1 := set_regs (<[0%nat:=7]> (<[1%nat:=1]> (regs (init 16)))) (init 16) in
  acc (snd (call DIV [x00; x00; x00; x00] [x00; x00; x00; x01] vm1))
  = acc (snd (call DIV [x00; x00; x00; x00] [x00; x00; x00; x01] vm0)).
Proof.
  intros vm0 vm1.
  assert (Hwf : forall s, s = vm0 \/ s = vm1 -> wf s).
  { intros s [-> | ->]; (split; [reflexivity|]);
      unfold u32; repeat constructor; lia. }
  destruct (div_floor_zero_as_one
              [x00; x00; x00; x00] [x00; x00; x00; x01] vm0
              eq_refl eq_refl (Hwf vm0 (or_introl eq_refl))) as [_ H].
  apply (H vm1 (Hwf vm1 (or_intror eq_refl))); reflexivity.
Defined.

(** ** Stack and calls *)

Tactic Notation "bind_by" tactic(t) := erewrite bind_ret_eq by t; cbv beta.

Lemma op_psh_eq (a b : list byte) vm :
  length a = 4%nat -> length (regs vm) = 16%nat ->
  op_psh a b vm
  = store_word (sp vm - 4) (reg_val vm (reg_of a)) (set_sp (sp vm - 4) vm).
Proof.
  intros Ha Hl. pose proof (reg_of_le a). unfold op_psh.
  bind_by (apply reg_operand_eq; assumption).
  bind_by reflexivity. bind_by reflexivity.
  bind_by (apply get_reg_eq; [assumption|lia]).
  bind_by reflexivity. reflexivity.
Qed.

Lemma op_pop_eq (a b : list byte) vm (v : Z) :
  length a = 4%nat -> length (regs vm) = 16%nat ->
  load_word (sp vm) vm = (Ret v, vm) ->
  op_pop a b vm
  = (Ret tt, set_sp (sp vm + 4) (set_regs (<[reg_of a:=v]> (regs vm)) vm)).
Proof.
  intros Ha Hl Hload. pose proof (reg_of_le a). unfold op_pop.
  bind_by (apply reg_operand_eq; assumption).
  bind_by reflexivity. bind_by (exact Hload).
  bind_by (apply set_reg_eq; [assumption|lia]).
  bind_by reflexivity. reflexivity.
Qed.

(** C7 (push then pop): with the stack inside memory, PSH of a register
    followed at once by POP into any register both return normally, put SP
    back to its value before the push and leave the pushed 32-bit value in
    the popped register. *)
Theorem push_pop_roundtrip (a b a' b' : list byte) (vm : VM) :
  length a = 4%nat -> length a' = 4%nat -> wf vm ->
  4 <= sp vm <= capacity vm ->
  exists vm1 vm2,
    call PSH a b vm = (Ret tt, vm1) /\
    call POP a' b' vm1 = (Ret tt, vm2) /\
    sp vm1 = sp vm - 4 /\
    sp vm2 = sp vm /\
    reg_val vm2 (reg_of a') = reg_val vm (reg_of a) /\
    capacity vm2 = capacity vm.
Proof.
  intros Ha Ha' Hwf Hsp. pose proof (wf_length vm Hwf) as Hl.
  pose proof (wf_reg_val vm (reg_of a) Hwf) as Hv.
  destruct (store_then_load (set_sp (sp vm - 4) vm) (sp vm - 4)
              (reg_val vm (reg_of a)) Hv)
    as (vm1 & Hst & Hregs & Hpc & Hsp1 & _ & _ & Hcap & Hld);
    [lia | unfold capacity in *; simpl; lia |].
  simpl in Hsp1.
  exists vm1. eexists. split; [|split].
  - simpl call. rewrite op_psh_eq by assumption. exact Hst.
  - simpl call. apply op_pop_eq with (v := reg_val vm (reg_of a)).
    + exact Ha'.
    + rewrite Hregs. exact Hl.
    + rewrite Hsp1. exact Hld.
  - pose proof (reg_of_le a').
    split; [exact Hsp1|]. split; [simpl; lia|]. split.
    + unfold reg_val at 1. simpl.
      rewrite list_lookup_insert_eq by (rewrite Hregs; simpl; lia).
      reflexivity.
    + exact Hcap.
Qed.

Lemma push_pop_roundtrip_witness :
  let vm := set_regs (<[2%nat:=0xDEADBEEF]> (regs (init 16))) (init 16) in
  exists vm1 vm2,
    call PSH [x00; x00; x00; x02] [] vm = (Ret tt, vm1) /\
    call POP [x00; x00; x00; x05] [] vm1 = (Ret tt, vm2) /\
    sp vm2 = 16 /\ reg_val vm2 5 = 0xDEADBEEF.
Proof.
  intros vm.
  destruct (push_pop_roundtrip [x00; x00; x00; x02] [] [x00; x00; x00; x05] [] vm)
    as (vm1 & vm2 & H1 & H2 & _ & H4 & H5 & _); try reflexivity.
  - split; [reflexivity|]. unfold u32. repeat constructor; lia.
  - unfold capacity. simpl. lia.
  - exists vm1, vm2. repeat split; assumption.
Defined.

(** ** Fetch and dispatch *)

(** The opcode formed from the first two bytes of an instruction. *)
Lemma opcode_range (i0 i1 : byte) :
  Z.lor (Z.shiftl (byte_val i0) 8) (byte_val i1)
  = 256 * byte_val i0 + byte_val i1.
Proof.
  pose proof (byte_val_range i0). pose proof (byte_val_range i1).
  assert (Hland : Z.land (Z.shiftl (byte_val i0) 8) (byte_val i1) = 0).
  { apply Z.bits_inj'. intros n Hn. rewrite Z.land_spec, Z.bits_0.
    destruct (Z.ltb_spec n 8).
    - rewrite Z.shiftl_spec_low by lia. reflexivity.
    - rewrite (Z.bits_above_log2 (byte_val i1)); [apply andb_false_r|lia|].
      destruct (Z.eqb_spec (byte_val i1) 0) as [->|]; [simpl; lia|].
      apply Z.lt_le_trans with 8; [|lia].
      apply Z.log2_lt_pow2; [lia|]. change (2 ^ 8) with 256. lia. }
  rewrite <- Z.lxor_lor, <- Z.add_nocarry_lxor by exact Hland.
  rewrite Z.shiftl_mul_pow2 by lia. change (2 ^ 8) with 256. lia.
Qed.

(** When the fetch guard passes and the slice has its ten bytes, the fetch
    returns them split 2 + 4 + 4 and leaves the state alone. *)
Lemma fetch_ten vm :
  pc vm + 10 <= capacity vm ->
  length (getslice (memory vm) (pc vm) (pc vm + 10)) = 10%nat ->
  exists i0 i1 a b,
    getslice (memory vm) (pc vm) (pc vm + 10) = i0 :: i1 :: a ++ b /\
    length a = 4%nat /\ length b = 4%nat /\
    fetch vm
    = (Ret (Some (Z.lor (Z.shiftl (byte_val i0) 8) (byte_val i1), a, b)), vm).
Proof.
  intros Hg Hlen. unfold fetch, bind, gets.
  unfold capacity in Hg.
  destruct (Z.gtb_spec (pc vm + 10) (Z.of_nat (length (memory vm))));
    [lia|].
  destruct (getslice (memory vm) (pc vm) (pc vm + 10))
    as [|i0 [|i1 [|i2 [|i3 [|i4 [|i5 [|i6 [|i7 [|i8 [|i9 [|]]]]]]]]]]];
    try discriminate Hlen.
  exists i0, i1, [i2; i3; i4; i5], [i6; i7; i8; i9].
  repeat split; reflexivity.
Qed.

Lemma fetch_inside vm :
  0 <= pc vm -> pc vm + 10 <= capacity vm ->
  exists i0 i1 a b,
    getslice (memory vm) (pc vm) (pc vm + 10) = i0 :: i1 :: a ++ b /\
    length a = 4%nat /\ length b = 4%nat /\
    fetch vm
    = (Ret (Some (Z.lor (Z.shiftl (byte_val i0) 8) (byte_val i1), a, b)), vm).
Proof.
  intros H0 Hg. apply fetch_ten; [exact Hg|].
  unfold capacity in Hg. rewrite getslice_inside_length; lia.
Qed.

Lemma fetch_halts vm :
  pc vm + 10 > capacity vm -> fetch vm = (Ret None, set_running false vm).
Proof.
  intros Hg. unfold fetch, bind, gets, modify, ret. unfold capacity in Hg.
  destruct (Z.gtb_spec (pc vm + 10) (Z.of_nat (length (memory vm))));
    [reflexivity|lia].
Qed.

Lemma cycle_eq vm (opcode : Z) (a b : list byte) :
  fetch vm = (Ret (Some (opcode, a, b)), vm) ->
  cycle vm = (dispatch opcode a b ;; ret true) vm.
Proof. intros H. unfold cycle. rewrite (bind_ret_eq _ _ _ _ _ H). reflexivity. Qed.

Lemma dispatch_known vm (opcode : Z) (h : handler) (a b : list byte) :
  ops_get opcode = Some h ->
  dispatch opcode a b vm = call h a b (set_pc (pc vm + 10) vm).
Proof.
  intros H. unfold dispatch. rewrite H.
  bind_by reflexivity. bind_by reflexivity. reflexivity.
Qed.

Lemma dispatch_unknown vm (opcode : Z) (a b : list byte) :
  ops_get opcode = None ->
  dispatch opcode a b vm
  = (Ret tt, set_running false
               (print (unknown_opcode_line opcode (pc vm + 10))
                      (set_pc (pc vm + 10) vm))).
Proof.
  intros H. unfold dispatch. rewrite H.
  bind_by reflexivity. bind_by reflexivity. reflexivity.
Qed.

Lemma cycle_known vm (opcode : Z) (h : handler) (a b : list byte) :
  fetch vm = (Ret (Some (opcode, a, b)), vm) ->
  ops_get opcode = Some h ->
  cycle vm = after_call (call h a b (set_pc (pc vm + 10) vm)).
Proof.
  intros Hf Hh. rewrite (cycle_eq vm opcode a b Hf).
  unfold bind. rewrite (dispatch_known vm opcode h a b Hh).
  destruct (call h a b (set_pc (pc vm + 10) vm)) as [[[]|e] vm']; reflexivity.
Qed.

(** ** Control flow *)

Lemma op_jmp_eq (a b : list byte) vm (addr : Z) :
  read_u32_be a = Ret addr -> op_jmp a b vm = (Ret tt, set_pc addr vm).
Proof. intros H. unfold op_jmp, bind, lift. rewrite H. reflexivity. Qed.

Lemma op_jmr_eq (a b : list byte) vm (off : Z) :
  read_s32_be a = Ret off -> op_jmr a b vm = (Ret tt, set_pc (pc vm + off) vm).
Proof. intros H. unfold op_jmr, bind, lift. rewrite H. reflexivity. Qed.

Lemma op_cmp_eq (a b : list byte) vm (addr : Z) :
  length a = 4%nat -> length (regs vm) = 16%nat -> read_u32_be b = Ret addr ->
  op_cmp a b vm
  = (Ret tt, set_pc (if reg_val vm (reg_of a) =? 0 then pc vm else addr) vm).
Proof.
  intros Ha Hl Hb. pose proof (reg_of_le a). unfold op_cmp.
  bind_by (apply reg_operand_eq; assumption).
  bind_by (unfold lift; rewrite Hb; reflexivity).
  bind_by (apply get_reg_eq; [assumption|lia]).
  destruct (reg_val vm (reg_of a) =? 0); destruct vm; reflexivity.
Qed.

Lemma op_cmr_eq (a b : list byte) vm (off : Z) :
  length a = 4%nat -> length (regs vm) = 16%nat -> read_s32_be b = Ret off ->
  op_cmr a b vm
  = (Ret tt, set_pc (if reg_val vm (reg_of a) =? 0 then pc vm
                     else pc vm + off) vm).
Proof.
  intros Ha Hl Hb. pose proof (reg_of_le a). unfold op_cmr.
  bind_by (apply reg_operand_eq; assumption).
  bind_by (unfold lift; rewrite Hb; reflexivity).
  bind_by (apply get_reg_eq; [assumption|lia]).
  destruct (reg_val vm (reg_of a) =? 0); destruct vm; reflexivity.
Qed.

(** C5 (advance before dispatch): in a cycle that fetches an instruction
    with a handler, the handler runs on the state whose PC is already
    PC + 10; hence JMP and a taken CMP replace that advanced value, an
    untaken CMP or CMR leaves PC + 10, and JMR and a taken CMR add their
    signed offset to PC + 10. *)
Theorem pc_advanced_before_dispatch (opcode : Z) (h : handler)
    (a b : list byte) (vm : VM) :
  fetch vm = (Ret (Some (opcode, a, b)), vm) ->
  ops_get opcode = Some h ->
  cycle vm = after_call (call h a b (set_pc (pc vm + 10) vm)) /\
  (forall addr, h = JMP -> read_u32_be a = Ret addr ->
     cycle vm = (Ret true, set_pc addr vm)) /\
  (forall off, h = JMR -> read_s32_be a = Ret off ->
     cycle vm = (Ret true, set_pc (pc vm + 10 + off) vm)) /\
  (forall addr, h = CMP ->
     length a = 4%nat -> length (regs vm) = 16%nat -> read_u32_be b = Ret addr ->
     cycle vm = (Ret true, set_pc (if reg_val vm (reg_of a) =? 0
                                   then pc vm + 10 else addr) vm)) /\
  (forall off, h = CMR ->
     length a = 4%nat -> length (regs vm) = 16%nat -> read_s32_be b = Ret off ->
     cycle vm = (Ret true, set_pc (if reg_val vm (reg_of a) =? 0
                                   then pc vm + 10 else pc vm + 10 + off) vm)).
Proof.
  intros Hf Hh. pose proof (cycle_known vm opcode h a b Hf Hh) as Hc.
  split; [exact Hc|]. rewrite Hc. clear Hc.
  split; [|split; [|split]].
  - intros addr -> Ha. simpl call. rewrite (op_jmp_eq a b _ addr Ha).
    reflexivity.
  - intros off -> Ha. simpl call. rewrite (op_jmr_eq a b _ off Ha).
    reflexivity.
  - intros addr -> Ha Hl Hb. simpl call.
    rewrite (op_cmp_eq a b (set_pc (pc vm + 10) vm) addr Ha Hl Hb). reflexivity.
  - intros off -> Ha Hl Hb. simpl call.
    rewrite (op_cmr_eq a b (set_pc (pc vm + 10) vm) off Ha Hl Hb). reflexivity.
Qed.

(** A backward jump over itself: JMR -10 at address 20 lands on 20 again,
    because the offset is added to 30. *)
Lemma pc_advanced_before_dispatch_witness :
  let prog := replicate 20 x00
              ++ [x00; x21; xff; xff; xff; xf6; x00; x00; x00; x00] in
  let vm := set_pc 20 (load_program prog (init 64)) in
  cycle vm = (Ret true, vm).
Proof.
  intros prog vm.
  destruct (pc_advanced_before_dispatch 0x21 JMR
              [xff; xff; xff; xf6] [x00; x00; x00; x00] vm)
    as (_ & _ & H & _); [reflexivity | reflexivity |].
  exact (H (-10) eq_refl eq_refl).
Defined.





(** ** Handlers never print and never stop the loop *)

Lemma quiet_bind {A B} (m : M A) (k : A -> M B) :
  quiet m -> (forall x, quiet (k x)) -> quiet (bind m k).
Proof.
  intros Hm Hk vm. unfold bind. specialize (Hm vm).
  destruct (m vm) as [[x|e] vm']; simpl in *.
  - specialize (Hk x vm'). destruct Hk, Hm. split; congruence.
  - exact Hm.
Qed.

Lemma quiet_ret {A} (x : A) : quiet (ret x).
Proof. intros vm. split; reflexivity. Qed.

Lemma quiet_lift {A} (r : res A) : quiet (lift r).
Proof. intros vm. split; reflexivity. Qed.

Lemma quiet_gets {A} (f : VM -> A) : quiet (gets f).
Proof. intros vm. split; reflexivity. Qed.

Lemma quiet_modify (f : VM -> VM) :
  (forall vm, running (f vm) = running vm /\ stdout (f vm) = stdout vm) ->
  quiet (modify f).
Proof. intros H vm. exact (H vm). Qed.

Ltac quiet_step :=
  first
    [ apply quiet_bind; [|intros ?]
    | apply quiet_ret
    | apply quiet_lift
    | apply quiet_gets
    | apply quiet_modify; intros ?; split; reflexivity
    | match goal with
      | |- quiet (if ?c then _ else _) => destruct c
      | |- quiet (match ?x with _ => _ end) => destruct x
      end ].

Lemma call_quiet (h : handler) (a b : list byte) : quiet (call h a b).
Proof.
  destruct h; simpl call;
    unfold op_ld, op_lc, op_dr, op_cpy, op_or, op_and, op_xor, op_nand,
      op_nor, op_not, op_add, op_sub, op_mul, op_div, op_exp, op_jmp,
      op_jmr, op_cmp, op_cmr, op_psh, op_pop, op_movsp, op_call, op_ret,
      op_gt, op_lt, op_eq, op_ne, op_ge, op_le, op_ldi, op_sti,
      _set_acc, reg_operand, get_reg, set_reg, load_word, store_word;
    repeat quiet_step.
Qed.

(** ** The loop *)

Lemma run_halts_at_end vm (fuel : nat) :
  running vm = true -> pc vm + 10 > capacity vm ->
  run (S fuel) vm = (Finished, set_running false vm).
Proof.
  intros Hr Hg. simpl. rewrite Hr. unfold cycle.
  rewrite (bind_ret_eq _ _ _ _ _ (fetch_halts vm Hg)). reflexivity.
Qed.





(** ** A negative program counter *)

Lemma getslice_negative {A} (l : list A) (i : Z) :
  - Z.of_nat (length l) <= i <= -11 ->
  getslice l i (i + 10) = take 10 (drop (Z.to_nat (Z.of_nat (length l) + i)) l).
Proof.
  intros Hi. unfold getslice, slice_lo, slice_hi, adjust.
  destruct (Z.ltb_spec i 0); [|lia].
  destruct (Z.ltb_spec (i + 10) 0); [|lia].
  replace (Z.to_nat (Z.max (Z.max (i + Z.of_nat (length l)) 0)
                       (Z.max (i + 10 + Z.of_nat (length l)) 0))
           - Z.to_nat (Z.max (i + Z.of_nat (length l)) 0))%nat
    with 10%nat by lia.
  do 2 f_equal. lia.
Qed.

(** C10 (negative PC), with the bound the code has: for PC between
    -len(memory) and -11 the fetch guard does not fire, the ten
    instruction bytes are the ones at offset len(memory) + PC, the fetch
    returns them without touching the state, and the cycle goes on to
    dispatch them. *)
Theorem negative_pc_fetches_from_top (vm : VM) :
  - capacity vm <= pc vm <= -11 ->
  (pc vm + 10 >? capacity vm) = false /\
  exists i0 i1 a b,
    take 10 (drop (Z.to_nat (capacity vm + pc vm)) (memory vm))
    = i0 :: i1 :: a ++ b /\
    length a = 4%nat /\ length b = 4%nat /\
    fetch vm
    = (Ret (Some (Z.lor (Z.shiftl (byte_val i0) 8) (byte_val i1), a, b)), vm) /\
    cycle vm
    = (dispatch (Z.lor (Z.shiftl (byte_val i0) 8) (byte_val i1)) a b ;;
       ret true) vm.
Proof.
  intros Hpc. unfold capacity in *. split; [lia|].
  pose proof (getslice_negative (memory vm) (pc vm) Hpc) as Hs.
  destruct (fetch_ten vm) as (i0 & i1 & a & b & Hi & Ha & Hb & Hf).
  - unfold capacity. lia.
  - rewrite Hs, length_take, length_drop. lia.
  - exists i0, i1, a, b. rewrite <- Hs.
    repeat split; try assumption. apply cycle_eq. exact Hf.
Qed.

(** PC = -12 on a 32-byte machine reads the bytes at offset 20. *)
Lemma negative_pc_fetches_from_top_witness :
  let vm := set_pc (-12) (load_program (replicate 20 x00 ++ [x00; x02]) (init 32)) in
  exists a b, fetch vm = (Ret (Some (2, a, b)), vm).
Proof.
  intros vm.
  destruct (negative_pc_fetches_from_top vm)
    as (_ & i0 & i1 & a & b & Hi & _ & _ & Hf & _).
  - unfold capacity. simpl. lia.
  - exists a, b. rewrite Hf.
    vm_compute in Hi. injection Hi as <- <- _. reflexivity.
Defined.

(** With -10 <= PC <= -1 the slice is empty and the fetch raises. *)
Lemma fetch_just_below_zero vm :
  10 <= capacity vm -> -10 <= pc vm <= -1 ->
  fetch vm = (Raise IndexError, vm).
Proof.
  intros Hc Hpc. unfold capacity in Hc. unfold fetch, bind, gets.
  destruct (Z.gtb_spec (pc vm + 10) (Z.of_nat (length (memory vm)))); [lia|].
  assert (Hnil : getslice (memory vm) (pc vm) (pc vm + 10) = []).
  { apply length_zero_iff_nil. rewrite getslice_length.
    unfold slice_lo, slice_hi, adjust.
    destruct (Z.ltb_spec (pc vm) 0); [|lia].
    destruct (Z.ltb_spec (pc vm + 10) 0); lia. }
  rewrite Hnil. reflexivity.
Qed.

(** C10, as stated, fails at its upper bound: JMR -20 at address 0 sets
    PC = 10 - 20 = -10, which lies in [-len(memory), -10]; the next fetch
    passes the guard, slices nothing and raises. *)
Lemma negative_pc_counterexample :
  let vm := load_program [x00; x21; xff; xff; xff; xec; x00; x00; x00; x00]
              (init 32) in
  let vm1 := set_pc (-10) vm in
  cycle vm = (Ret true, vm1) /\
  - capacity vm1 <= pc vm1 <= -10 /\
  (pc vm1 + 10 >? capacity vm1) = false /\
  getslice (memory vm1) (pc vm1) (pc vm1 + 10) = [] /\
  fetch vm1 = (Raise IndexError, vm1) /\
  run 2 vm = (Uncaught IndexError, vm1).
Proof.
  intros vm vm1. unfold capacity.
  repeat split; try reflexivity; simpl; lia.
Qed.

(** ** Accesses outside memory *)

Lemma op_ld_outside (a b : list byte) vm (addr : Z) :
  read_u32_be a = Ret addr -> length b = 4%nat ->
  addr + 4 > capacity vm -> op_ld a b vm = (Raise StructError, vm).
Proof.
  intros Ha Hb Hout. unfold op_ld.
  bind_by (unfold lift; rewrite Ha; reflexivity).
  bind_by (apply reg_operand_eq; assumption).
  apply bind_raise_eq. apply load_word_outside. exact Hout.
Qed.

Lemma op_ldi_outside (a b : list byte) vm :
  length a = 4%nat -> length b = 4%nat -> length (regs vm) = 16%nat ->
  reg_val vm (reg_of a) + 4 > capacity vm ->
  op_ldi a b vm = (Raise StructError, vm).
Proof.
  intros Ha Hb Hl Hout. pose proof (reg_of_le a). unfold op_ldi.
  bind_by (apply reg_operand_eq; assumption).
  bind_by (apply reg_operand_eq; assumption).
  bind_by (apply get_reg_eq; [assumption|lia]).
  apply bind_raise_eq. apply load_word_outside. exact Hout.
Qed.

Lemma op_pop_outside (a b : list byte) vm :
  length a = 4%nat -> sp vm + 4 > capacity vm ->
  op_pop a b vm = (Raise StructError, vm).
Proof.
  intros Ha Hout. unfold op_pop.
  bind_by (apply reg_operand_eq; assumption).
  bind_by reflexivity.
  apply bind_raise_eq. apply load_word_outside. exact Hout.
Qed.

Lemma op_ret_outside (a b : list byte) vm :
  sp vm + 4 > capacity vm -> op_ret a b vm = (Raise StructError, vm).
Proof.
  intros Hout. unfold op_ret.
  bind_by reflexivity.
  apply bind_raise_eq. apply load_word_outside. exact Hout.
Qed.

(** C1 (access outside memory), as the code has it: when the four bytes
    read by LD, LDI, POP or RET do not all lie inside memory, the handler
    raises [struct.error] and leaves memory, registers, PC and SP exactly
    as it found them; nothing catches the exception, so a run that reaches
    such an instruction ends with it, PC advanced by the cycle and nothing
    printed. *)
Theorem load_outside_memory_raises (h : handler) (a b : list byte)
    (vm : VM) (addr : Z) :
  load_addr h a vm = Some addr ->
  length a = 4%nat -> length b = 4%nat -> length (regs vm) = 16%nat ->
  addr + 4 > capacity vm ->
  call h a b vm = (Raise StructError, vm) /\
  forall opcode vm0 fuel,
    running vm0 = true ->
    fetch vm0 = (Ret (Some (opcode, a, b)), vm0) ->
    ops_get opcode = Some h ->
    vm = set_pc (pc vm0 + 10) vm0 ->
    run (S fuel) vm0 = (Uncaught StructError, set_pc (pc vm0 + 10) vm0).
Proof.
  intros Haddr Ha Hb Hl Hout.
  assert (Hcall : call h a b vm = (Raise StructError, vm)).
  { destruct h; try discriminate Haddr; simpl in Haddr; simpl call.
    - destruct (read_u32_be a) as [x|] eqn:E; [|discriminate].
      injection Haddr as ->. apply (op_ld_outside a b vm addr); assumption.
    - injection Haddr as <-. apply op_pop_outside; assumption.
    - injection Haddr as <-. apply op_ret_outside; assumption.
    - injection Haddr as <-. apply op_ldi_outside; assumption. }
  split; [exact Hcall|].
  intros opcode vm0 fuel Hr Hf Hh ->.
  simpl run. rewrite Hr, (cycle_known vm0 opcode h a b Hf Hh), Hcall.
  reflexivity.
Qed.

(** POP on a fresh machine: SP is the capacity, so nothing can be read. *)
Lemma load_outside_memory_raises_witness :
  let vm0 := load_program [x00; x31] (init 32) in
  run 1 vm0 = (Uncaught StructError, set_pc 10 vm0).
Proof.
  intros vm0.
  destruct (load_outside_memory_raises POP (replicate 4 x00) (replicate 4 x00)
              (set_pc 10 vm0) 32 eq_refl eq_refl eq_refl eq_refl) as [_ H].
  - unfold capacity. simpl. lia.
  - apply (H 0x31 vm0 0%nat); reflexivity.
Defined.

(** A store whose span leaves memory does not fault: the slice assignment
    resizes the byte array. *)
Lemma store_word_outside vm (addr v : Z) :
  u32 v -> 0 <= addr -> addr + 4 > capacity vm ->
  exists vm', store_word addr v vm = (Ret tt, vm') /\
    capacity vm' = Z.min addr (capacity vm) + 4.
Proof.
  intros Hv Ha Hout. destruct (store_word_eq vm addr v Hv) as (bs & Hp & _ & Hs).
  eexists. split; [exact Hs|].
  unfold capacity in *. simpl. rewrite setslice_length.
  rewrite (pack_u32_be_length _ _ Hp).
  unfold slice_lo, slice_hi, adjust.
  destruct (Z.ltb_spec addr 0); [lia|].
  destruct (Z.ltb_spec (addr + 4) 0); lia.
Qed.

(** C1, as stated, fails on the code.  DR of register 0 to address 30 of a
    32-byte machine (span 30..33) is no fault: the cycle completes, the
    machine keeps running and memory is now 34 bytes long.  LD from the
    same address stops the run with an exception that nothing catches or
    reports. *)
Lemma memory_fault_counterexample :
  let st := load_program [x00; x03; x00; x00; x00; x00; x00; x00; x00; x1e]
              (init 32) in
  let ld := load_program [x00; x01; x00; x00; x00; x1e; x00; x00; x00; x00]
              (init 32) in
  30 + 4 > capacity st /\
  (exists vm', cycle st = (Ret true, vm') /\ running vm' = true /\
     capacity vm' = 34 /\ memory vm' <> memory st) /\
  run 1 ld = (Uncaught StructError, set_pc 10 ld) /\
  stdout (snd (run 1 ld)) = [].
Proof.
  intros st ld. split; [unfold capacity; simpl; lia|]. split.
  - eexists. split; [reflexivity|]. split; [reflexivity|].
    split; [reflexivity|]. intros H. discriminate H.
  - split; reflexivity.
Qed.

(** ** The clamp on register operands *)

Lemma reg_operand_range (f : list byte) vm (r : Z) (vm' : VM) :
  reg_operand f vm = (Ret r, vm') -> vm' = vm /\ 0 <= r <= 14.
Proof.
  unfold reg_operand, bind, lift, ret.
  destruct (getitem f 3) as [x|e]; [|discriminate].
  intros [= <- <-]. split; [reflexivity|apply clamp_reg_range].
Qed.

Lemma reg_operand_state (f : list byte) vm : snd (reg_operand f vm) = vm.
Proof.
  unfold reg_operand, bind, lift, ret.
  destruct (getitem f 3); reflexivity.
Qed.

Lemma norm_index_small (n : nat) (r : Z) (k : nat) :
  0 <= r <= 14 -> norm_index n r = Some k -> (k <= 14)%nat.
Proof.
  intros Hr. unfold norm_index.
  destruct (Z.leb_spec 0 r); [|lia].
  destruct (r <? Z.of_nat n); [|discriminate].
  intros [= <-]. lia.
Qed.

(** *** Handlers outside the accumulator family leave register 15 alone *)

Lemma spares_bind {A B} (m : M A) (k : A -> M B) :
  spares_acc m -> (forall x, spares_acc (k x)) -> spares_acc (bind m k).
Proof.
  intros Hm Hk vm. unfold bind. specialize (Hm vm).
  destruct (m vm) as [[x|e] vm']; simpl in *.
  - rewrite (Hk x vm'). exact Hm.
  - exact Hm.
Qed.

Lemma spares_reg_operand {B} (f : list byte) (k : Z -> M B) :
  (forall r, 0 <= r <= 14 -> spares_acc (k r)) ->
  spares_acc (bind (reg_operand f) k).
Proof.
  intros Hk vm. unfold bind.
  destruct (reg_operand f vm) as [[r|e] vm'] eqn:E.
  - destruct (reg_operand_range f vm r vm' E) as [-> Hr]. apply Hk, Hr.
  - pose proof (reg_operand_state f vm) as H. rewrite E in H. simpl in *.
    rewrite H. reflexivity.
Qed.

Lemma spares_pure {A} (m : M A) :
  (forall vm, regs (snd (m vm)) = regs vm) -> spares_acc m.
Proof. intros H vm. rewrite H. reflexivity. Qed.

Lemma spares_set_reg (r v : Z) : 0 <= r <= 14 -> spares_acc (set_reg r v).
Proof.
  intros Hr vm. unfold set_reg, bind, gets, modify, lift.
  destruct (norm_index (length (regs vm)) r) as [k|] eqn:E; simpl;
    [|reflexivity].
  pose proof (norm_index_small _ _ _ Hr E).
  apply list_lookup_insert_ne. lia.
Qed.

Lemma spares_get_reg (r : Z) : spares_acc (get_reg r).
Proof.
  apply spares_pure. intros vm. unfold get_reg, bind, gets, lift.
  destruct (getitem (regs vm) r); reflexivity.
Qed.

Lemma spares_load_word (addr : Z) : spares_acc (load_word addr).
Proof. apply spares_pure. reflexivity. Qed.

Lemma spares_store_word (addr v : Z) : spares_acc (store_word addr v).
Proof.
  apply spares_pure. intros vm. unfold store_word, bind, lift, gets, modify.
  destruct (pack_u32_be v); reflexivity.
Qed.

Ltac spares_step :=
  first
    [ apply spares_reg_operand; intros ? ?
    | apply spares_get_reg
    | apply spares_load_word
    | apply spares_store_word
    | apply spares_set_reg; assumption
    | apply spares_bind; [|intros ?]
    | apply spares_pure; intros ?; reflexivity
    | match goal with
      | |- spares_acc (if ?c then _ else _) => destruct c
      | |- spares_acc (lift ?r) => destruct r
      end ].

Lemma call_spares_acc (h : handler) (a b : list byte) :
  writes_acc h = false -> spares_acc (call h a b).
Proof.
  destruct h; try discriminate; intros _; simpl call;
    unfold op_ld, op_lc, op_dr, op_cpy, op_jmp, op_jmr, op_cmp, op_cmr,
      op_psh, op_pop, op_movsp, op_call, op_ret, op_ldi, op_sti;
    repeat spares_step.
Qed.

(** *** No handler reads register 15 *)

Lemma blind_bind {A B} (m : M A) (k : A -> M B) :
  blind m -> (forall x, blind (k x)) -> blind (bind m k).
Proof.
  intros Hm Hk vm1 vm2 Hs. unfold bind.
  destruct (Hm vm1 vm2 Hs) as [Hr Hs'].
  destruct (m vm1) as [[x1|e1] s1], (m vm2) as [[x2|e2] s2];
    simpl in *; try discriminate.
  - injection Hr as ->. apply Hk, Hs'.
  - injection Hr as ->. split; [reflexivity|exact Hs'].
Qed.

Lemma blind_reg_operand {B} (f : list byte) (k : Z -> M B) :
  (forall r, 0 <= r <= 14 -> blind (k r)) -> blind (bind (reg_operand f) k).
Proof.
  intros Hk vm1 vm2 Hs. unfold bind, reg_operand, lift, ret.
  destruct (getitem f 3) as [x|e]; simpl.
  - apply Hk; [apply clamp_reg_range|exact Hs].
  - split; [reflexivity|exact Hs].
Qed.

Lemma blind_ret {A} (x : A) : blind (ret x).
Proof. intros vm1 vm2 Hs. split; [reflexivity|exact Hs]. Qed.

Lemma blind_lift {A} (r : res A) : blind (lift r).
Proof. intros vm1 vm2 Hs. split; [reflexivity|exact Hs]. Qed.

Lemma blind_gets {A} (f : VM -> A) :
  (forall vm1 vm2, same_but_acc vm1 vm2 -> f vm1 = f vm2) -> blind (gets f).
Proof.
  intros Hf vm1 vm2 Hs. split; [simpl; f_equal; apply Hf, Hs|exact Hs].
Qed.

Lemma blind_modify (f : VM -> VM) :
  (forall vm1 vm2, same_but_acc vm1 vm2 -> same_but_acc (f vm1) (f vm2)) ->
  blind (modify f).
Proof. intros Hf vm1 vm2 Hs. split; [reflexivity|apply Hf, Hs]. Qed.

Lemma blind_get_reg (r : Z) : 0 <= r <= 14 -> blind (get_reg r).
Proof.
  intros Hr vm1 vm2 Hs. pose proof Hs as (_ & _ & _ & _ & _ & Hl & Hk).
  unfold get_reg, bind, gets, lift, getitem. simpl. rewrite Hl.
  split; [|exact Hs].
  destruct (norm_index (length (regs vm2)) r) as [k|] eqn:E; [|reflexivity].
  pose proof (norm_index_small _ _ _ Hr E).
  rewrite (Hk k) by lia. reflexivity.
Qed.

Lemma blind_set_reg (r v : Z) : blind (set_reg r v).
Proof.
  intros vm1 vm2 Hs. pose proof Hs as (Hm & Hp & Hsp & Hr & Ho & Hl & Hk).
  unfold set_reg, bind, gets, modify, lift. simpl. rewrite Hl.
  destruct (norm_index (length (regs vm2)) r) as [k|] eqn:E; simpl;
    [|split; [reflexivity|exact Hs]].
  split; [reflexivity|].
  repeat split; simpl; try assumption.
  - rewrite !length_insert. exact Hl.
  - intros j Hj. destruct (decide (k = j)) as [->|Hne].
    + unfold norm_index in E.
      assert (j < length (regs vm2))%nat.
      { destruct (Z.leb_spec 0 r).
        - destruct (Z.ltb_spec r (Z.of_nat (length (regs vm2))));
            [|discriminate]. injection E as <-. lia.
        - destruct (Z.leb_spec 0 (r + Z.of_nat (length (regs vm2))));
            [|discriminate]. injection E as <-. lia. }
      rewrite !list_lookup_insert_eq by lia. reflexivity.
    + rewrite !list_lookup_insert_ne by assumption. apply Hk, Hj.
Qed.

Ltac same_field :=
  let H := fresh in
  intros ? ? H; pose proof H as (? & ? & ? & ? & ? & ? & ?);
  first [ assumption
        | repeat split; simpl; assumption ].

Lemma blind_load_word (addr : Z) : blind (load_word addr).
Proof.
  unfold load_word. apply blind_bind; [apply blind_gets; same_field|].
  intros mem. apply blind_lift.
Qed.

Lemma blind_store_word (addr v : Z) : blind (store_word addr v).
Proof.
  unfold store_word. apply blind_bind; [apply blind_lift|]. intros bs.
  apply blind_bind; [apply blind_gets; same_field|]. intros mem.
  apply blind_modify. same_field.
Qed.

Ltac blind_step :=
  first
    [ apply blind_reg_operand; intros ? ?
    | apply blind_get_reg; assumption
    | apply blind_set_reg
    | apply blind_load_word
    | apply blind_store_word
    | apply blind_ret
    | apply blind_lift
    | apply blind_gets; same_field
    | apply blind_modify; same_field
    | apply blind_bind; [|intros ?]
    | match goal with
      | |- blind (if ?c then _ else _) => destruct c
      end ].

Lemma call_blind (h : handler) (a b : list byte) : blind (call h a b).
Proof.
  destruct h; simpl call;
    unfold op_ld, op_lc, op_dr, op_cpy, op_or, op_and, op_xor, op_nand,
      op_nor, op_not, op_add, op_sub, op_mul, op_div, op_exp, op_jmp,
      op_jmr, op_cmp, op_cmr, op_psh, op_pop, op_movsp, op_call, op_ret,
      op_gt, op_lt, op_eq, op_ne, op_ge, op_le, op_ldi, op_sti, _set_acc;
    repeat blind_step.
Qed.

(** C2 (register index clamp): in every field that an instruction decodes
    as a register, index 15 gives the same result as index 14, whatever
    the other bytes and the state are; an instruction outside the
    bitwise, arithmetic and comparison families never changes register
    15; and no instruction reads it: two states that differ only in
    register 15 produce the same result and states that again differ only
    there. *)
Theorem index_15_behaves_as_14 (h : handler) (x y z : byte) (f : list byte)
    (vm : VM) :
  (reg_in_a h = true ->
     call h [x; y; z; x0f] f vm = call h [x; y; z; x0e] f vm) /\
  (reg_in_b h = true ->
     call h f [x; y; z; x0f] vm = call h f [x; y; z; x0e] vm) /\
  (writes_acc h = false ->
     forall a b, regs (snd (call h a b vm)) !! 15%nat = regs vm !! 15%nat) /\
  (forall a b vm', same_but_acc vm vm' ->
     fst (call h a b vm) = fst (call h a b vm') /\
     same_but_acc (snd (call h a b vm)) (snd (call h a b vm'))).
Proof.
  split; [|split; [|split]].
  - destruct h; try discriminate; intros _; reflexivity.
  - destruct h; try discriminate; intros _; reflexivity.
  - intros Hw a b. apply (call_spares_acc h a b Hw).
  - intros a b vm' Hs. apply (call_blind h a b vm vm' Hs).
Qed.

(** CPY with index 15 as source and as destination moves register 14. *)
Lemma index_15_behaves_as_14_witness :
  let vm := set_regs (<[14%nat:=7]> (<[15%nat:=9]> (regs (init 16)))) (init 16) in
  call CPY [x00; x00; x00; x0f] [x00; x00; x00; x03] vm
  = call CPY [x00; x00; x00; x0e] [x00; x00; x00; x03] vm /\
  regs (snd (call CPY [x00; x00; x00; x03] [x00; x00; x00; x0f] vm)) !! 15%nat
  = Some 9.
Proof.
  intros vm. split.
  - destruct (index_15_behaves_as_14 CPY x00 x00 x00 [x00; x00; x00; x03] vm)
      as (H & _). exact (H eq_refl).
  - destruct (index_15_behaves_as_14 CPY x00 x00 x00 [] vm)
      as (_ & _ & H & _).
    rewrite (H eq_refl). reflexivity.
Defined.

(** ** Well-formedness is an invariant of the machine

    Every state reachable from a fresh machine has sixteen registers
    holding unsigned 32-bit values, which is what the statements above
    assume of the state they start from. *)

Lemma u32_as_mask (x : Z) : u32 x <-> Z.land x (Z.ones 32) = x.
Proof.
  rewrite Z.land_ones by lia. unfold u32. split.
  - intros H. apply Z.mod_small. exact H.
  - intros <-. apply Z.mod_pos_bound. lia.
Qed.

Lemma u32_mask (x : Z) : u32 (Z.land x 0xFFFFFFFF).
Proof. rewrite mask_is_mod. apply Z.mod_pos_bound. lia. Qed.

Lemma u32_lor (x y : Z) : u32 x -> u32 y -> u32 (Z.lor x y).
Proof.
  rewrite !u32_as_mask. intros Hx Hy.
  rewrite Z.land_lor_distr_l, Hx, Hy. reflexivity.
Qed.

Lemma u32_land (x y : Z) : u32 x -> u32 y -> u32 (Z.land x y).
Proof.
  rewrite !u32_as_mask. intros Hx Hy.
  rewrite <- Z.land_assoc, Hy. reflexivity.
Qed.

Lemma u32_lxor (x y : Z) : u32 x -> u32 y -> u32 (Z.lxor x y).
Proof.
  rewrite !u32_as_mask. intros Hx Hy.
  apply Z.bits_inj'. intros n Hn.
  rewrite <- Hx, <- Hy. rewrite Z.land_spec, Z.lxor_spec, !Z.land_spec.
  destruct (Z.testbit x n), (Z.testbit y n), (Z.testbit (Z.ones 32) n);
    reflexivity.
Qed.

Lemma u32_div (x y : Z) : u32 x -> u32 (x / Z.max y 1).
Proof.
  unfold u32. intros Hx.
  assert (Hd : 1 <= Z.max y 1) by lia. revert Hd.
  generalize (Z.max y 1). intros d Hd. split.
  - apply Z.div_pos; lia.
  - apply Z.le_lt_trans with x; [|lia].
    apply Z.div_le_upper_bound; [lia|]. nia.
Qed.

Lemma u32_pow3 (x y v : Z) : pow3 x y (2 ^ 32) = Ret v -> u32 v.
Proof.
  destruct y as [|p|p]; simpl; try discriminate.
  - intros [= <-]. apply Z.mod_pos_bound. reflexivity.
  - intros [= <-]. rewrite pow_mod_pos_spec by reflexivity.
    apply Z.mod_pos_bound. reflexivity.
Qed.

Lemma u32_flag (c : bool) : u32 (if c then 0xFFFFFFFF else 0).
Proof. unfold u32. destruct c; simpl; lia. Qed.

Lemma wf_init (n : nat) : wf (init n).
Proof.
  split; [reflexivity|]. unfold u32. simpl. repeat constructor; lia.
Qed.

Lemma wf_load_program (prog : list byte) vm : wf vm -> wf (load_program prog vm).
Proof. intros H. exact H. Qed.

Lemma wf_bind_val {A B} (Q : A -> Prop) (m : M A) (k : A -> M B) :
  triple wf m (fun r vm => wf vm /\ match r with Ret x => Q x | Raise _ => True end) ->
  (forall x, Q x -> triple wf (k x) (fun _ vm => wf vm)) ->
  triple wf (bind m k) (fun _ vm => wf vm).
Proof.
  intros Hm Hk vm Hwf. unfold bind. specialize (Hm vm Hwf).
  destruct (m vm) as [[x|e] vm']; simpl in *.
  - destruct Hm as [Hwf' Hq]. apply (Hk x Hq vm' Hwf').
  - apply Hm.
Qed.

Lemma wf_pure {A} (Q : A -> Prop) (m : M A) :
  (forall vm, snd (m vm) = vm) ->
  (forall vm x, wf vm -> fst (m vm) = Ret x -> Q x) ->
  triple wf m (fun r vm => wf vm /\ match r with Ret x => Q x | Raise _ => True end).
Proof.
  intros Hs Hq vm Hwf. rewrite Hs. split; [exact Hwf|].
  destruct (fst (m vm)) as [x|e] eqn:E; [|exact I].
  apply (Hq vm x Hwf E).
Qed.

Lemma wf_any {A} (m : M A) :
  (forall vm, regs (snd (m vm)) = regs vm) ->
  triple wf m (fun r vm => wf vm /\ match r with Ret x => True | Raise _ => True end).
Proof.
  intros Hs vm [Hl Hf]. split.
  - split; rewrite Hs; assumption.
  - destruct (fst (m vm)); exact I.
Qed.

Lemma wf_last {A} (m : M A) :
  (forall vm, regs (snd (m vm)) = regs vm) ->
  triple wf m (fun _ vm => wf vm).
Proof. intros Hs vm [Hl Hf]. split; rewrite Hs; assumption. Qed.

Lemma wf_get_reg (r : Z) :
  triple wf (get_reg r)
    (fun r vm => wf vm /\ match r with Ret x => u32 x | Raise _ => True end).
Proof.
  apply wf_pure.
  - intros vm. unfold get_reg, bind, gets, lift. reflexivity.
  - intros vm x [_ Hf]. unfold get_reg, bind, gets, lift, getitem. simpl.
    destruct (norm_index (length (regs vm)) r) as [k|]; [|discriminate].
    destruct (regs vm !! k) as [v|] eqn:E; [|discriminate].
    intros [= <-]. exact (proj1 (Forall_lookup _ _) Hf k v E).
Qed.

Lemma wf_load_word (addr : Z) :
  triple wf (load_word addr)
    (fun r vm => wf vm /\ match r with Ret x => u32 x | Raise _ => True end).
Proof.
  apply wf_pure; [reflexivity|].
  intros vm x _. rewrite load_word_eq. simpl. apply read_u32_be_range.
Qed.

Lemma wf_read_u32 (f : list byte) :
  triple wf (lift (read_u32_be f))
    (fun r vm => wf vm /\ match r with Ret x => u32 x | Raise _ => True end).
Proof.
  apply wf_pure; [reflexivity|].
  intros vm x _. simpl. apply read_u32_be_range.
Qed.

Lemma wf_pow3 (x y : Z) :
  triple wf (lift (pow3 x y (2 ^ 32)))
    (fun r vm => wf vm /\ match r with Ret x => u32 x | Raise _ => True end).
Proof.
  apply wf_pure; [reflexivity|].
  intros vm v _. simpl. apply u32_pow3.
Qed.

Lemma wf_set_reg (r v : Z) :
  u32 v -> triple wf (set_reg r v) (fun _ vm => wf vm).
Proof.
  intros Hv vm [Hl Hf]. unfold set_reg, bind, gets, modify, lift.
  destruct (norm_index (length (regs vm)) r) as [k|]; simpl;
    [|split; assumption].
  split; simpl.
  - rewrite length_insert. exact Hl.
  - apply Forall_insert; assumption.
Qed.

Lemma wf_store_word (addr v : Z) :
  triple wf (store_word addr v) (fun _ vm => wf vm).
Proof.
  apply wf_last. intros vm. unfold store_word, bind, lift, gets, modify.
  destruct (pack_u32_be v); reflexivity.
Qed.

Lemma wf_reg_operand (f : list byte) :
  triple wf (reg_operand f)
    (fun r vm => wf vm /\ match r with Ret x => True | Raise _ => True end).
Proof.
  apply wf_any. intros vm. rewrite reg_operand_state. reflexivity.
Qed.

Lemma wf_then {A} (m : M A) :
  triple wf m (fun _ vm => wf vm) ->
  triple wf m (fun r vm => wf vm /\ match r with Ret x => True | Raise _ => True end).
Proof.
  intros H vm Hwf. split; [apply H, Hwf|]. destruct (fst (m vm)); exact I.
Qed.

Ltac u32_solve :=
  first
    [ assumption
    | apply u32_mask
    | apply u32_flag
    | apply u32_lor; assumption
    | apply u32_land; assumption
    | apply u32_lxor; assumption
    | apply u32_div; assumption ].

Ltac wf_step :=
  first
    [ apply wf_set_reg; u32_solve
    | apply wf_store_word
    | apply wf_last; intros ?; reflexivity
    | match goal with
      | |- triple wf (if ?c then _ else _) _ => destruct c
      end
    | eapply wf_bind_val;
      [ first [ apply wf_get_reg | apply wf_load_word | apply wf_read_u32
              | apply wf_pow3 | apply wf_reg_operand
              | apply wf_then;
                first [ apply wf_set_reg; u32_solve | apply wf_store_word ]
              | apply wf_any; intros ?;
                first [ reflexivity
                      | unfold lift; reflexivity ] ]
      | intros ? ? ] ].

Lemma call_wf (h : handler) (a b : list byte) :
  triple wf (call h a b) (fun _ vm => wf vm).
Proof.
  destruct h; simpl call;
    unfold op_ld, op_lc, op_dr, op_cpy, op_or, op_and, op_xor, op_nand,
      op_nor, op_not, op_add, op_sub, op_mul, op_div, op_exp, op_jmp,
      op_jmr, op_cmp, op_cmr, op_psh, op_pop, op_movsp, op_call, op_ret,
      op_gt, op_lt, op_eq, op_ne, op_ge, op_le, op_ldi, op_sti, _set_acc;
    repeat wf_step.
Qed.

Lemma step_wf vm : wf vm -> wf (snd (cycle vm)).
Proof.
  intros Hwf. unfold cycle, bind.
  assert (Hfetch : regs (snd (fetch vm)) = regs vm).
  { unfold fetch, bind, gets, modify, ret, lift.
    destruct (_ >? _); [reflexivity|].
    destruct (getitem _ 0); [|reflexivity].
    destruct (getitem _ 1); reflexivity. }
  destruct (fetch vm) as [[[[[opcode a] b]|]|e] vm1]; simpl in Hfetch;
    (assert (Hwf1 : wf vm1) by (split; rewrite Hfetch; apply Hwf));
    try exact Hwf1.
  assert (Hd : wf (snd (dispatch opcode a b vm1))).
  { unfold dispatch, bind, gets, modify. simpl.
    destruct (ops_get opcode) as [h|]; [|exact Hwf1].
    apply (call_wf h a b (set_pc (pc vm1 + 10) vm1)). exact Hwf1. }
  destruct (dispatch opcode a b vm1) as [[[]|e] vm2]; exact Hd.
Qed.

Lemma run_wf (fuel : nat) vm : wf vm -> wf (snd (run fuel vm)).
Proof.
  revert vm. induction fuel as [|fuel IH]; intros vm Hwf; simpl.
  - destruct (running vm); exact Hwf.
  - destruct (running vm); [|exact Hwf].
    pose proof (step_wf vm Hwf) as Hs.
    destruct (cycle vm) as [[[|]|e] vm']; simpl in *;
      [apply IH; exact Hs | exact Hs | exact Hs].
Qed.

(** ** End-to-end runs *)

(** LC r0 = 7; LC r1 = 3; ADD r0, r1: the accumulator holds 10 when the
    run ends on the zero bytes that follow the program. *)
Example run_add :
  let prog := [x00; x02; x00; x00; x00; x07; x00; x00; x00; x00;
               x00; x02; x00; x00; x00; x03; x00; x00; x00; x01;
               x00; x0b; x00; x00; x00; x00; x00; x00; x00; x01] in
  let r := run 8 (load_program prog (init 64)) in
  fst r = Finished /\ acc (snd r) = 10 /\
  stdout (snd r) = ["Unknown opcode 0000 at 30"%string].
Proof. vm_compute. repeat split. Qed.

(** LC r0 = 100; JMP 30; LC r0 = 1 (skipped): r0 is still 100. *)
Example run_jump_skips :
  let prog := [x00; x02; x00; x00; x00; x64; x00; x00; x00; x00;
               x00; x20; x00; x00; x00; x1e; x00; x00; x00; x00;
               x00; x02; x00; x00; x00; x01; x00; x00; x00; x00] in
  let r := run 8 (load_program prog (init 64)) in
  fst r = Finished /\ reg_val (snd r) 0 = 100 /\ pc (snd r) = 40.
Proof. vm_compute. repeat split. Qed.

(** LC r0 = 42; PSH r0, the program filling memory but for the stack slot
    and two bytes: the run ends on the fetch guard with SP four below the
    capacity and 42 in the word at SP. *)
Example run_push_then_end :
  let prog := [x00; x02; x00; x00; x00; x2a; x00; x00; x00; x00;
               x00; x30; x00; x00; x00; x00; x00; x00; x00; x00] in
  let r := run 8 (load_program prog (init 26)) in
  fst r = Finished /\ stdout (snd r) = [] /\ sp (snd r) = 22 /\
  fst (load_word 22 (snd r)) = Ret 42.
Proof. vm_compute. repeat split. Qed.

(** * Further properties of the code *)

(** ** The word codecs *)

Lemma byte_of_Z_val (b : byte) (z : Z) :
  z mod 256 = byte_val b -> byte_of_Z z = b.
Proof.
  intros H. unfold byte_of_Z. rewrite H. unfold byte_val.
  rewrite N2Z.id, Byte.of_to_N. reflexivity.
Qed.

Lemma pack_read_u32 (bs : list byte) (v : Z) :
  read_u32_be bs = Ret v -> pack_u32_be v = Ret bs.
Proof.
  intros H. pose proof (read_u32_be_range bs v H) as Hv.
  destruct bs as [|b0 [|b1 [|b2 [|b3 [|]]]]]; simpl in H; try discriminate.
  injection H as H.
  pose proof (byte_val_range b0). pose proof (byte_val_range b1).
  pose proof (byte_val_range b2). pose proof (byte_val_range b3).
  unfold u32 in Hv. change (2 ^ 32) with 4294967296 in Hv.
  unfold pack_u32_be.
  replace ((0 <=? v) && (v <=? 0xFFFFFFFF)) with true
    by (symmetry; apply andb_true_iff; split; lia).
  change 0x1000000 with 16777216. change 0x10000 with 65536.
  change 0x100 with 256.
  assert (H24 : v / 16777216 = byte_val b0).
  { symmetry. apply Z.div_unique with
      ((byte_val b1 * 256 + byte_val b2) * 256 + byte_val b3); lia. }
  assert (H16 : v / 65536 = byte_val b0 * 256 + byte_val b1).
  { symmetry. apply Z.div_unique with (byte_val b2 * 256 + byte_val b3); lia. }
  assert (H8 : v / 256 = (byte_val b0 * 256 + byte_val b1) * 256 + byte_val b2).
  { symmetry. apply Z.div_unique with (byte_val b3); lia. }
  f_equal. f_equal; [|f_equal; [|f_equal; [|f_equal]]];
    apply byte_of_Z_val.
  - rewrite H24. apply Z.mod_small. lia.
  - rewrite H16. symmetry. apply Z.mod_unique with (byte_val b0); lia.
  - rewrite H8. symmetry.
    apply Z.mod_unique with (byte_val b0 * 256 + byte_val b1); lia.
  - symmetry.
    apply Z.mod_unique with
      ((byte_val b0 * 256 + byte_val b1) * 256 + byte_val b2); lia.
Qed.

(** X1 (unsigned codec): [struct.pack(">I", v)] succeeds exactly on
    0 <= v < 2^32 and then yields four bytes; reading them back with
    [read_u32_be] gives [v], and packing what [read_u32_be] returned gives
    the bytes that were read, so the two are inverse bijections between
    the 4-byte strings and the unsigned 32-bit integers. *)
Theorem u32_codec_inverse :
  (forall v, u32 v <-> exists bs, pack_u32_be v = Ret bs) /\
  (forall v bs, pack_u32_be v = Ret bs ->
     length bs = 4%nat /\ read_u32_be bs = Ret v) /\
  (forall bs v, read_u32_be bs = Ret v ->
     length bs = 4%nat /\ u32 v /\ pack_u32_be v = Ret bs).
Proof.
  split; [|split].
  - intros v. split.
    + intros Hv. destruct (read_pack_u32 v Hv) as (bs & Hp & _). eauto.
    + intros [bs Hp]. unfold pack_u32_be in Hp. unfold u32.
      change (2 ^ 32) with 4294967296.
      destruct (Z.leb_spec 0 v), (Z.leb_spec v 0xFFFFFFFF);
        simpl in Hp; try discriminate. lia.
  - intros v bs Hp. split; [exact (pack_u32_be_length v bs Hp)|].
    assert (Hv : u32 v).
    { unfold pack_u32_be in Hp. unfold u32.
      change (2 ^ 32) with 4294967296.
      destruct (Z.leb_spec 0 v), (Z.leb_spec v 0xFFFFFFFF);
        simpl in Hp; try discriminate. lia. }
    destruct (read_pack_u32 v Hv) as (bs' & Hp' & Hr).
    rewrite Hp in Hp'. injection Hp' as <-. exact Hr.
  - intros bs v Hr. split; [|split].
    + destruct bs as [|b0 [|b1 [|b2 [|b3 [|]]]]]; simpl in Hr;
        try discriminate. reflexivity.
    + exact (read_u32_be_range bs v Hr).
    + exact (pack_read_u32 bs v Hr).
Qed.

Lemma u32_codec_inverse_witness :
  read_u32_be [xde; xad; xbe; xef] = Ret 0xDEADBEEF /\
  pack_u32_be 0xDEADBEEF = Ret [xde; xad; xbe; xef].
Proof.
  destruct u32_codec_inverse as (_ & _ & H).
  destruct (H [xde; xad; xbe; xef] 0xDEADBEEF eq_refl) as (_ & _ & Hp).
  split; [reflexivity|exact Hp].
Defined.

(** X2 (signed codec): on four bytes [read_s32_be] returns the
    two's-complement reading of the word [read_u32_be] returns: a value in
    [-2^31, 2^31) congruent to it modulo 2^32; on any other length both
    raise [struct.error]. *)
Theorem s32_is_twos_complement (bs : list byte) :
  (length bs = 4%nat ->
     exists u s, read_u32_be bs = Ret u /\ read_s32_be bs = Ret s /\
       - 2 ^ 31 <= s < 2 ^ 31 /\ s mod 2 ^ 32 = u /\
       (u < 2 ^ 31 -> s = u) /\ (2 ^ 31 <= u -> s = u - 2 ^ 32)) /\
  (length bs <> 4%nat ->
     read_u32_be bs = Raise StructError /\ read_s32_be bs = Raise StructError).
Proof.
  split.
  - intros Hl. destruct (read_u32_be_length bs Hl) as [u Hu].
    pose proof (read_u32_be_range bs u Hu) as Hr. unfold u32 in Hr.
    exists u. eexists. split; [exact Hu|]. unfold read_s32_be. rewrite Hu.
    split; [reflexivity|].
    change (2 ^ 32) with 4294967296 in *. change (2 ^ 31) with 2147483648.
    change 0x80000000 with 2147483648. change 0x100000000 with 4294967296.
    destruct (Z.ltb_spec u 2147483648).
    + repeat split; try lia. apply Z.mod_small. lia.
    + repeat split; try lia.
      symmetry. apply Z.mod_unique with (-1); lia.
  - intros Hl. pose proof (read_u32_be_short bs Hl) as H.
    split; [exact H|]. unfold read_s32_be. rewrite H. reflexivity.
Qed.

Lemma s32_is_twos_complement_witness :
  read_s32_be [xff; xff; xff; xec] = Ret (-20) /\
  read_s32_be [xff; xff; xff] = Raise StructError.
Proof.
  split.
  - destruct (s32_is_twos_complement [xff; xff; xff; xec]) as [H _].
    destruct (H eq_refl) as (u & s & Hu & Hs & _ & _ & _ & H2).
    rewrite Hs. f_equal.
    assert (Hu' : u = 4294967276) by (vm_compute in Hu; congruence).
    subst u. rewrite H2 by (vm_compute; discriminate). reflexivity.
  - destruct (s32_is_twos_complement [xff; xff; xff]) as [_ H].
    apply H. discriminate.
Defined.

(** ** Which handlers can raise, and what *)

Lemma outcome_bind {A B} (E : exn -> Prop) (Q : A -> Prop) (R : B -> Prop)
    (m : M A) (k : A -> M B) :
  outcome E Q m -> (forall x, Q x -> outcome E R (k x)) ->
  outcome E R (bind m k).
Proof.
  intros Hm Hk vm Hwf. unfold bind. destruct (Hm vm Hwf) as [Hwf' Hq].
  destruct (m vm) as [[x|e] vm']; simpl in *.
  - apply (Hk x Hq vm' Hwf').
  - split; assumption.
Qed.

Lemma outcome_ret {A} (E : exn -> Prop) (Q : A -> Prop) (x : A) :
  Q x -> outcome E Q (ret x).
Proof. intros Hq vm Hwf. split; assumption. Qed.

Lemma outcome_gets {A} (E : exn -> Prop) (f : VM -> A) :
  outcome E (fun _ => True) (gets f).
Proof. intros vm Hwf. split; [exact Hwf|exact I]. Qed.

Lemma outcome_modify (E : exn -> Prop) (f : VM -> VM) :
  (forall vm, regs (f vm) = regs vm) -> outcome E (fun _ => True) (modify f).
Proof.
  intros Hf vm [Hl Hu]. split; [|exact I]. split; simpl; rewrite Hf; assumption.
Qed.

Lemma outcome_reg_operand (E : exn -> Prop) (f : list byte) :
  length f = 4%nat -> outcome E (fun r => 0 <= r <= 14) (reg_operand f).
Proof.
  intros Hf vm Hwf. rewrite (reg_operand_eq f vm Hf). simpl.
  split; [exact Hwf|]. pose proof (reg_of_le f). lia.
Qed.

Lemma outcome_get_reg (E : exn -> Prop) (r : Z) :
  0 <= r <= 14 -> outcome E u32 (get_reg r).
Proof.
  intros Hr vm Hwf. pose proof (wf_length vm Hwf) as Hl.
  replace r with (Z.of_nat (Z.to_nat r)) by lia.
  rewrite get_reg_eq by (assumption || lia). simpl.
  split; [exact Hwf|apply wf_reg_val; exact Hwf].
Qed.

Lemma outcome_set_reg (E : exn -> Prop) (r v : Z) :
  0 <= r <= 15 -> u32 v -> outcome E (fun _ => True) (set_reg r v).
Proof.
  intros Hr Hv vm Hwf. pose proof (wf_length vm Hwf) as Hl.
  split; [apply (wf_set_reg r v Hv vm Hwf)|].
  replace r with (Z.of_nat (Z.to_nat r)) by lia.
  rewrite set_reg_eq by (assumption || lia). exact I.
Qed.

Lemma outcome_read_u32 (E : exn -> Prop) (f : list byte) :
  length f = 4%nat -> outcome E u32 (lift (read_u32_be f)).
Proof.
  intros Hf vm Hwf. split; [exact Hwf|]. simpl.
  destruct (read_u32_be_length f Hf) as [v Hv]. rewrite Hv.
  exact (read_u32_be_range f v Hv).
Qed.

Lemma outcome_read_s32 (E : exn -> Prop) (f : list byte) :
  length f = 4%nat -> outcome E (fun _ => True) (lift (read_s32_be f)).
Proof.
  intros Hf vm Hwf. split; [exact Hwf|]. simpl. unfold read_s32_be.
  destruct (read_u32_be_length f Hf) as [v Hv]. rewrite Hv. exact I.
Qed.

Lemma outcome_pow3 (E : exn -> Prop) (x y : Z) :
  u32 y -> outcome E u32 (lift (pow3 x y (2 ^ 32))).
Proof.
  intros Hy vm Hwf. split; [exact Hwf|]. simpl. unfold u32 in Hy.
  rewrite pow3_spec by (lia || reflexivity).
  apply Z.mod_pos_bound. reflexivity.
Qed.

Lemma outcome_load_word (E : exn -> Prop) (addr : Z) :
  E StructError -> outcome E u32 (load_word addr).
Proof.
  intros He vm Hwf. split; [exact Hwf|]. rewrite load_word_eq. simpl.
  destruct (read_u32_be _) as [v|e] eqn:Hr.
  - exact (read_u32_be_range _ v Hr).
  - destruct (getslice (memory vm) addr (addr + 4))
      as [|b0 [|b1 [|b2 [|b3 [|]]]]]; simpl in Hr; try discriminate;
      injection Hr as <-; exact He.
Qed.

Lemma outcome_store_word (E : exn -> Prop) (addr v : Z) :
  u32 v \/ E StructError -> outcome E (fun _ => True) (store_word addr v).
Proof.
  intros Hv vm Hwf. split; [apply (wf_store_word addr v vm Hwf)|].
  unfold store_word, bind, lift, gets, modify.
  destruct (pack_u32_be v) as [bs|e] eqn:Hp; simpl; [exact I|].
  destruct Hv as [Hv|He].
  - destruct (read_pack_u32 v Hv) as (bs & Hp' & _). congruence.
  - unfold pack_u32_be in Hp. destruct (_ && _); [discriminate|].
    injection Hp as <-. exact He.
Qed.

Ltac outcome_side :=
  first
    [ assumption
    | lia
    | unfold ACC; lia
    | u32_solve
    | left; u32_solve
    | right; split; reflexivity
    | split; reflexivity
    | exact I
    | intros ?; reflexivity ].

Ltac outcome_step :=
  first
    [ apply outcome_set_reg; outcome_side
    | apply outcome_store_word; outcome_side
    | apply outcome_modify; outcome_side
    | apply outcome_ret; outcome_side
    | match goal with
      | |- outcome _ _ (if ?c then _ else _) => destruct c
      end
    | eapply outcome_bind;
      [ first [ apply outcome_reg_operand; outcome_side
              | apply outcome_get_reg; outcome_side
              | apply outcome_read_u32; outcome_side
              | apply outcome_read_s32; outcome_side
              | apply outcome_pow3; outcome_side
              | apply outcome_load_word; outcome_side
              | apply outcome_set_reg; outcome_side
              | apply outcome_store_word; outcome_side
              | apply outcome_gets
              | apply outcome_modify; outcome_side ]
      | intros ? ?; cbv beta in * ] ].

Lemma call_outcome (h : handler) (a b : list byte) :
  length a = 4%nat -> length b = 4%nat ->
  outcome (fun e => may_raise h = true /\ e = StructError) (fun _ => True)
    (call h a b).
Proof.
  intros Ha Hb.
  destruct h; simpl call; simpl may_raise;
    unfold op_ld, op_lc, op_dr, op_cpy, op_or, op_and, op_xor, op_nand,
      op_nor, op_not, op_add, op_sub, op_mul, op_div, op_exp, op_jmp,
      op_jmr, op_cmp, op_cmr, op_psh, op_pop, op_movsp, op_call, op_ret,
      op_gt, op_lt, op_eq, op_ne, op_ge, op_le, op_ldi, op_sti, _set_acc;
    repeat outcome_step.
Qed.

(** X3 (what a handler can raise): on a machine with sixteen unsigned
    32-bit registers and 4-byte operand fields, every handler other than
    LD, LDI, POP, RET and CALL returns normally; those five either return
    or raise [struct.error], never anything else; and whatever happens the
    registers are still sixteen unsigned 32-bit values. *)
Theorem handlers_raise_only_struct_error (h : handler) (a b : list byte) (vm : VM) :
  length a = 4%nat -> length b = 4%nat -> wf vm ->
  wf (snd (call h a b vm)) /\
  (fst (call h a b vm) = Ret tt \/
   (may_raise h = true /\ fst (call h a b vm) = Raise StructError)).
Proof.
  intros Ha Hb Hwf. destruct (call_outcome h a b Ha Hb vm Hwf) as [Hwf' Ho].
  split; [exact Hwf'|].
  destruct (fst (call h a b vm)) as [[]|e].
  - left. reflexivity.
  - right. destruct Ho as [Hm ->]. split; [exact Hm|reflexivity].
Qed.

(** STI through a zero address register on an empty memory returns. *)
Lemma handlers_raise_only_struct_error_witness :
  fst (call STI [x00; x00; x00; x01] [x00; x00; x00; x02] (init 0)) = Ret tt.
Proof.
  destruct (handlers_raise_only_struct_error STI
              [x00; x00; x00; x01] [x00; x00; x00; x02] (init 0)
              eq_refl eq_refl (wf_init 0)) as [_ [H|[H _]]].
  - exact H.
  - discriminate H.
Defined.

(** ** Bitwise instructions *)

Lemma masked_complement (z : Z) :
  u32 z -> Z.land (Z.lnot z) 0xFFFFFFFF = 0xFFFFFFFF - z.
Proof.
  unfold u32. change (2 ^ 32) with 4294967296. intros Hz.
  rewrite mask_is_mod. change (2 ^ 32) with 4294967296.
  unfold Z.lnot. symmetry. apply Z.mod_unique with (-1); lia.
Qed.

(** X4 (bitwise family): on unsigned 32-bit registers OR, AND and XOR
    write the bitwise combination, which needs no mask to stay below
    2^32, and NAND, NOR and NOT write the 32-bit complement, that is
    0xFFFFFFFF minus the AND, the OR, or the operand itself; each returns
    normally and changes only the accumulator. *)
Theorem bitwise_results (a b : list byte) (vm : VM) :
  length a = 4%nat -> length b = 4%nat -> wf vm ->
  (call OR a b vm
   = (Ret tt, set_regs (<[15%nat:=Z.lor (reg_val vm (reg_of a)) (reg_val vm (reg_of b))]> (regs vm)) vm) /\
   u32 (Z.lor (reg_val vm (reg_of a)) (reg_val vm (reg_of b)))) /\
  (call AND a b vm
   = (Ret tt, set_regs (<[15%nat:=Z.land (reg_val vm (reg_of a)) (reg_val vm (reg_of b))]> (regs vm)) vm) /\
   u32 (Z.land (reg_val vm (reg_of a)) (reg_val vm (reg_of b)))) /\
  (call XOR a b vm
   = (Ret tt, set_regs (<[15%nat:=Z.lxor (reg_val vm (reg_of a)) (reg_val vm (reg_of b))]> (regs vm)) vm) /\
   u32 (Z.lxor (reg_val vm (reg_of a)) (reg_val vm (reg_of b)))) /\
  call NAND a b vm
  = (Ret tt, set_regs (<[15%nat:=0xFFFFFFFF - Z.land (reg_val vm (reg_of a)) (reg_val vm (reg_of b))]> (regs vm)) vm) /\
  call NOR a b vm
  = (Ret tt, set_regs (<[15%nat:=0xFFFFFFFF - Z.lor (reg_val vm (reg_of a)) (reg_val vm (reg_of b))]> (regs vm)) vm) /\
  call NOT a b vm
  = (Ret tt, set_regs (<[15%nat:=0xFFFFFFFF - reg_val vm (reg_of a)]> (regs vm)) vm).
Proof.
  intros Ha Hb Hwf. pose proof (wf_length vm Hwf) as Hl.
  pose proof (wf_reg_val vm (reg_of a) Hwf) as Hx.
  pose proof (wf_reg_val vm (reg_of b) Hwf) as Hy.
  pose proof (reg_of_le a) as Hra.
  simpl call. unfold op_or, op_and, op_xor, op_nand, op_nor, op_not.
  rewrite !binop_eq by assumption. rewrite !set_acc_eq by assumption.
  rewrite !masked_complement by (u32_solve).
  repeat split; try u32_solve;
    try (apply u32_lor || apply u32_land || apply u32_lxor); try apply Hx;
    try apply Hy.
  bind_by (apply reg_operand_eq; assumption).
  bind_by (apply get_reg_eq; [assumption|lia]).
  rewrite masked_complement by assumption. apply set_acc_eq. assumption.
Qed.

Lemma bitwise_results_witness :
  let vm := set_regs (<[0%nat:=0xF0F0F0F0]> (<[1%nat:=0x0FF00FF0]> (regs (init 16)))) (init 16) in
  acc (snd (call NAND [x00; x00; x00; x00] [x00; x00; x00; x01] vm)) = 0xFF0FFF0F /\
  acc (snd (call NOT [x00; x00; x00; x00] [x00; x00; x00; x00] vm)) = 0x0F0F0F0F.
Proof.
  intros vm.
  assert (Hwf : wf vm).
  { split; [reflexivity|]. unfold u32. repeat constructor; lia. }
  split.
  - destruct (bitwise_results [x00; x00; x00; x00] [x00; x00; x00; x01] vm
                eq_refl eq_refl Hwf) as (_ & _ & _ & H & _).
    rewrite H. reflexivity.
  - destruct (bitwise_results [x00; x00; x00; x00] [x00; x00; x00; x00] vm
                eq_refl eq_refl Hwf) as (_ & _ & _ & _ & _ & H).
    rewrite H. reflexivity.
Defined.

(** ** Stores and loads *)

Lemma op_dr_eq (a b : list byte) vm (addr : Z) :
  length a = 4%nat -> length (regs vm) = 16%nat -> read_u32_be b = Ret addr ->
  op_dr a b vm = store_word addr (reg_val vm (reg_of a)) vm.
Proof.
  intros Ha Hl Hb. pose proof (reg_of_le a). unfold op_dr.
  bind_by (apply reg_operand_eq; assumption).
  bind_by (unfold lift; rewrite Hb; reflexivity).
  bind_by (apply get_reg_eq; [assumption|lia]). reflexivity.
Qed.

Lemma op_ld_eq (a b : list byte) vm (addr v : Z) :
  length b = 4%nat -> length (regs vm) = 16%nat -> read_u32_be a = Ret addr ->
  load_word addr vm = (Ret v, vm) ->
  op_ld a b vm = (Ret tt, set_regs (<[reg_of b:=v]> (regs vm)) vm).
Proof.
  intros Hb Hl Ha Hld. pose proof (reg_of_le b). unfold op_ld.
  bind_by (unfold lift; rewrite Ha; reflexivity).
  bind_by (apply reg_operand_eq; assumption).
  bind_by (exact Hld).
  apply set_reg_eq; [assumption|lia].
Qed.

Lemma op_sti_eq (a b : list byte) vm :
  length a = 4%nat -> length b = 4%nat -> length (regs vm) = 16%nat ->
  op_sti a b vm
  = store_word (reg_val vm (reg_of b)) (reg_val vm (reg_of a)) vm.
Proof.
  intros Ha Hb Hl. pose proof (reg_of_le a). pose proof (reg_of_le b).
  unfold op_sti.
  bind_by (apply reg_operand_eq; assumption).
  bind_by (apply reg_operand_eq; assumption).
  bind_by (apply get_reg_eq; [assumption|lia]).
  bind_by (apply get_reg_eq; [assumption|lia]). reflexivity.
Qed.

Lemma op_ldi_eq (a b : list byte) vm (v : Z) :
  length a = 4%nat -> length b = 4%nat -> length (regs vm) = 16%nat ->
  load_word (reg_val vm (reg_of a)) vm = (Ret v, vm) ->
  op_ldi a b vm = (Ret tt, set_regs (<[reg_of b:=v]> (regs vm)) vm).
Proof.
  intros Ha Hb Hl Hld. pose proof (reg_of_le a). pose proof (reg_of_le b).
  unfold op_ldi.
  bind_by (apply reg_operand_eq; assumption).
  bind_by (apply reg_operand_eq; assumption).
  bind_by (apply get_reg_eq; [assumption|lia]).
  bind_by (exact Hld).
  apply set_reg_eq; [assumption|lia].
Qed.

(** X5 (store then load, direct): DR of a register to an address whose
    four bytes lie inside memory, followed by LD from the same address
    into any register, both return; the loaded register holds the stored
    value, every other register, PC and SP are as before, and memory has
    kept its length. *)
Theorem dr_ld_roundtrip (a b a' b' : list byte) (vm : VM) (addr : Z) :
  length a = 4%nat -> length b' = 4%nat -> wf vm ->
  read_u32_be b = Ret addr -> read_u32_be a' = Ret addr ->
  addr + 4 <= capacity vm ->
  exists vm1 vm2,
    call DR a b vm = (Ret tt, vm1) /\
    call LD a' b' vm1 = (Ret tt, vm2) /\
    reg_val vm2 (reg_of b') = reg_val vm (reg_of a) /\
    (forall k, k <> reg_of b' -> reg_val vm2 k = reg_val vm k) /\
    pc vm2 = pc vm /\ sp vm2 = sp vm /\ capacity vm2 = capacity vm.
Proof.
  intros Ha Hb' Hwf Hb Ha' Hin. pose proof (wf_length vm Hwf) as Hl.
  pose proof (read_u32_be_range b addr Hb) as Haddr. unfold u32 in Haddr.
  destruct (store_then_load vm addr (reg_val vm (reg_of a))
              (wf_reg_val vm _ Hwf))
    as (vm1 & Hst & Hregs & Hpc & Hsp & _ & _ & Hcap & Hld); [lia|lia|].
  exists vm1. eexists. split; [|split].
  - simpl call. rewrite (op_dr_eq a b vm addr Ha Hl Hb). exact Hst.
  - simpl call.
    apply (op_ld_eq a' b' vm1 addr (reg_val vm (reg_of a))); try assumption.
    rewrite Hregs. exact Hl.
  - pose proof (reg_of_le b'). unfold reg_val. simpl. rewrite Hregs.
    split; [|split; [|split; [|split]]]; try assumption.
    + rewrite list_lookup_insert_eq by lia. reflexivity.
    + intros k Hk. rewrite list_lookup_insert_ne by congruence. reflexivity.
Qed.

Lemma dr_ld_roundtrip_witness :
  let vm := set_regs (<[3%nat:=0xCAFE]> (regs (init 16))) (init 16) in
  exists vm1 vm2,
    call DR [x00; x00; x00; x03] [x00; x00; x00; x0c] vm = (Ret tt, vm1) /\
    call LD [x00; x00; x00; x0c] [x00; x00; x00; x07] vm1 = (Ret tt, vm2) /\
    reg_val vm2 7 = 0xCAFE.
Proof.
  intros vm.
  destruct (dr_ld_roundtrip [x00; x00; x00; x03] [x00; x00; x00; x0c]
              [x00; x00; x00; x0c] [x00; x00; x00; x07] vm 12)
    as (vm1 & vm2 & H1 & H2 & H3 & _);
    [ reflexivity | reflexivity | | reflexivity | reflexivity | | ].
  - split; [reflexivity|]. unfold u32. repeat constructor; lia.
  - vm_compute. discriminate.
  - exists vm1, vm2. repeat split; assumption.
Defined.

(** X6 (store then load, indirect): STI of a register through an address
    register whose value addresses four bytes inside memory, followed by
    LDI through a register holding the same address, both return and the
    destination register of LDI holds the stored value; memory keeps its
    length. *)
Theorem sti_ldi_roundtrip (a b a' b' : list byte) (vm : VM) :
  length a = 4%nat -> length b = 4%nat ->
  length a' = 4%nat -> length b' = 4%nat -> wf vm ->
  reg_val vm (reg_of a') = reg_val vm (reg_of b) ->
  reg_val vm (reg_of b) + 4 <= capacity vm ->
  exists vm1 vm2,
    call STI a b vm = (Ret tt, vm1) /\
    call LDI a' b' vm1 = (Ret tt, vm2) /\
    reg_val vm2 (reg_of b') = reg_val vm (reg_of a) /\
    (forall k, k <> reg_of b' -> reg_val vm2 k = reg_val vm k) /\
    capacity vm2 = capacity vm.
Proof.
  intros Ha Hb Ha' Hb' Hwf Hsame Hin. pose proof (wf_length vm Hwf) as Hl.
  pose proof (wf_reg_val vm (reg_of b) Hwf) as Haddr. unfold u32 in Haddr.
  destruct (store_then_load vm (reg_val vm (reg_of b)) (reg_val vm (reg_of a))
              (wf_reg_val vm _ Hwf))
    as (vm1 & Hst & Hregs & Hpc & Hsp & _ & _ & Hcap & Hld); [lia|lia|].
  exists vm1. eexists. split; [|split].
  - simpl call. rewrite (op_sti_eq a b vm Ha Hb Hl). exact Hst.
  - simpl call.
    apply (op_ldi_eq a' b' vm1 (reg_val vm (reg_of a))); try assumption.
    + rewrite Hregs. exact Hl.
    + unfold reg_val at 1. rewrite Hregs. fold (reg_val vm (reg_of a')).
      rewrite Hsame. exact Hld.
  - pose proof (reg_of_le b'). unfold reg_val. simpl. rewrite Hregs.
    split; [|split]; try assumption.
    + rewrite list_lookup_insert_eq by lia. reflexivity.
    + intros k Hk. rewrite list_lookup_insert_ne by congruence. reflexivity.
Qed.

Lemma sti_ldi_roundtrip_witness :
  let vm := set_regs (<[3%nat:=0xCAFE]> (<[4%nat:=8]> (regs (init 16)))) (init 16) in
  exists vm1 vm2,
    call STI [x00; x00; x00; x03] [x00; x00; x00; x04] vm = (Ret tt, vm1) /\
    call LDI [x00; x00; x00; x04] [x00; x00; x00; x09] vm1 = (Ret tt, vm2) /\
    reg_val vm2 9 = 0xCAFE.
Proof.
  intros vm.
  destruct (sti_ldi_roundtrip [x00; x00; x00; x03] [x00; x00; x00; x04]
              [x00; x00; x00; x04] [x00; x00; x00; x09] vm)
    as (vm1 & vm2 & H1 & H2 & H3 & _); try reflexivity.
  - split; [reflexivity|]. unfold u32. repeat constructor; lia.
  - vm_compute. discriminate.
  - exists vm1, vm2. repeat split; assumption.
Defined.

(** Four bytes written across or beyond the end of the sequence end up at
    offset min(i, length), which becomes the new end minus four. *)
Lemma setslice_outside {A} (l v : list A) (i : Z) :
  0 <= i -> i + 4 > Z.of_nat (length l) -> length v = 4%nat ->
  setslice l i (i + 4) v = take (Z.to_nat (Z.min i (Z.of_nat (length l)))) l ++ v.
Proof.
  intros Hi Hout Hv. unfold setslice, slice_lo, slice_hi, adjust.
  destruct (Z.ltb_spec i 0); [lia|].
  destruct (Z.ltb_spec (i + 4) 0); [lia|].
  f_equal.
  rewrite drop_ge by lia. apply app_nil_r.
Qed.

(** X7 (store past the end): DR to an address whose four bytes do not all
    lie inside memory is no error.  It returns, leaves the registers
    alone, keeps the bytes below min(addr, len(memory)), puts the word at
    that offset (not at addr when addr is beyond the end) and makes it
    the new last word, so memory is now min(addr, len(memory)) + 4 bytes
    long, longer than before. *)
Theorem dr_outside_grows (a b : list byte) (vm : VM) (addr : Z) :
  length a = 4%nat -> wf vm -> read_u32_be b = Ret addr ->
  addr + 4 > capacity vm ->
  exists vm1,
    call DR a b vm = (Ret tt, vm1) /\
    regs vm1 = regs vm /\
    capacity vm1 = Z.min addr (capacity vm) + 4 /\
    capacity vm1 > capacity vm /\
    take (Z.to_nat (Z.min addr (capacity vm))) (memory vm1)
    = take (Z.to_nat (Z.min addr (capacity vm))) (memory vm) /\
    load_word (Z.min addr (capacity vm)) vm1
    = (Ret (reg_val vm (reg_of a)), vm1).
Proof.
  intros Ha Hwf Hb Hout. pose proof (wf_length vm Hwf) as Hl.
  pose proof (read_u32_be_range b addr Hb) as Haddr. unfold u32 in Haddr.
  destruct (store_word_eq vm addr (reg_val vm (reg_of a)) (wf_reg_val vm _ Hwf))
    as (bs & Hp & Hr & Hs).
  pose proof (pack_u32_be_length _ _ Hp) as Hbs.
  unfold capacity in *.
  set (lo := Z.to_nat (Z.min addr (Z.of_nat (length (memory vm))))) in *.
  assert (Hlo : (lo <= length (memory vm))%nat) by lia.
  eexists. split.
  { simpl call. rewrite (op_dr_eq a b vm addr Ha Hl Hb). exact Hs. }
  simpl. rewrite setslice_outside by (lia || assumption). fold lo.
  split; [reflexivity|].
  assert (Hlen : length (take lo (memory vm) ++ bs) = (lo + 4)%nat).
  { rewrite length_app, length_take, Hbs. lia. }
  split; [rewrite Hlen; lia|]. split; [rewrite Hlen; lia|]. split.
  - rewrite take_app_le by (rewrite length_take; lia).
    rewrite take_take. f_equal. lia.
  - rewrite load_word_eq. simpl. f_equal.
    replace (Z.min addr (Z.of_nat (length (memory vm)))) with (Z.of_nat lo) by lia.
    unfold getslice.
    destruct (slice_inside (take lo (memory vm) ++ bs) (Z.of_nat lo) (Z.of_nat lo + 4))
      as [-> ->]; [lia|rewrite Hlen; lia|].
    rewrite Nat2Z.id.
    rewrite drop_app_length' by (rewrite length_take; lia).
    replace (Z.to_nat (Z.of_nat lo + 4) - lo)%nat with (length bs) by lia.
    rewrite firstn_all. exact Hr.
Qed.

(** DR to address 40 of a 32-byte machine appends the word at offset 32. *)
Lemma dr_outside_grows_witness :
  let vm := set_regs (<[3%nat:=0xCAFE]> (regs (init 32))) (init 32) in
  exists vm1,
    call DR [x00; x00; x00; x03] [x00; x00; x00; x28] vm = (Ret tt, vm1) /\
    capacity vm1 = 36 /\
    load_word 32 vm1 = (Ret 0xCAFE, vm1).
Proof.
  intros vm.
  destruct (dr_outside_grows [x00; x00; x00; x03] [x00; x00; x00; x28] vm 40)
    as (vm1 & H1 & _ & H2 & _ & _ & H3);
    [ reflexivity | | reflexivity | | ].
  - split; [reflexivity|]. unfold u32. repeat constructor; lia.
  - vm_compute. reflexivity.
  - exists vm1. repeat split; assumption.
Defined.

(** POP raises as soon as the slice at SP is not four bytes long. *)
Lemma op_pop_outside_slice (a b : list byte) vm :
  length a = 4%nat ->
  length (getslice (memory vm) (sp vm) (sp vm + 4)) <> 4%nat ->
  op_pop a b vm = (Raise StructError, vm).
Proof.
  intros Ha Hs. unfold op_pop.
  bind_by (apply reg_operand_eq; assumption).
  bind_by reflexivity.
  apply bind_raise_eq. rewrite load_word_eq. f_equal.
  apply read_u32_be_short. exact Hs.
Qed.

(** X8 (stack underflow): with 0 <= SP < 4 on a memory of at least four
    bytes PSH is no error: it returns with SP negative and the four bytes
    inserted four bytes before the end of memory, which grows by four.
    The POP that follows cannot read them back: its slice is empty and it
    raises [struct.error], leaving the state as PSH left it. *)
Theorem psh_underflow (a b a' b' : list byte) (vm : VM) :
  length a = 4%nat -> length a' = 4%nat -> wf vm ->
  0 <= sp vm < 4 -> 4 <= capacity vm ->
  exists vm1,
    call PSH a b vm = (Ret tt, vm1) /\
    sp vm1 = sp vm - 4 /\
    regs vm1 = regs vm /\
    capacity vm1 = capacity vm + 4 /\
    call POP a' b' vm1 = (Raise StructError, vm1).
Proof.
  intros Ha Ha' Hwf Hsp Hcap. pose proof (wf_length vm Hwf) as Hl.
  destruct (store_word_eq (set_sp (sp vm - 4) vm) (sp vm - 4)
              (reg_val vm (reg_of a)) (wf_reg_val vm _ Hwf))
    as (bs & Hp & _ & Hs).
  pose proof (pack_u32_be_length _ _ Hp) as Hbs.
  unfold capacity in *. eexists. split.
  { simpl call. rewrite (op_psh_eq a b vm Ha Hl). exact Hs. }
  simpl. split; [reflexivity|]. split; [reflexivity|].
  assert (Hlen : Z.of_nat (length (setslice (memory vm) (sp vm - 4)
                                     (sp vm - 4 + 4) bs))
                 = Z.of_nat (length (memory vm)) + 4).
  { rewrite setslice_length, Hbs. unfold slice_lo, slice_hi, adjust.
    destruct (Z.ltb_spec (sp vm - 4) 0); [|lia].
    destruct (Z.ltb_spec (sp vm - 4 + 4) 0); lia. }
  split; [exact Hlen|].
  apply op_pop_outside_slice; [exact Ha'|]. simpl.
  rewrite getslice_length. unfold slice_lo, slice_hi, adjust.
  destruct (Z.ltb_spec (sp vm - 4) 0); [|lia].
  destruct (Z.ltb_spec (sp vm - 4 + 4) 0); lia.
Qed.

(** PSH on a 16-byte machine whose SP was moved to 0. *)
Lemma psh_underflow_witness :
  let vm := set_sp 0 (init 16) in
  exists vm1,
    call PSH [x00; x00; x00; x00] [] vm = (Ret tt, vm1) /\
    sp vm1 = -4 /\ capacity vm1 = 20 /\
    call POP [x00; x00; x00; x00] [] vm1 = (Raise StructError, vm1).
Proof.
  intros vm.
  destruct (psh_underflow [x00; x00; x00; x00] [] [x00; x00; x00; x00] [] vm
              eq_refl eq_refl (wf_init 16))
    as (vm1 & H1 & H2 & _ & H3 & H4).
  - simpl. lia.
  - vm_compute. discriminate.
  - exists vm1. repeat split; assumption.
Defined.

(** ** The decoder *)

(** X9 (fetch with PC >= 0): [fetch] never raises when PC is not
    negative.  If fewer than ten bytes are left it clears the running
    flag and returns no instruction; otherwise it leaves the state alone
    and returns the big-endian 16-bit opcode made of the first two bytes
    at PC (so 0 <= opcode < 65536 and the two bytes are recovered from
    it), the next four bytes as field A and the four after those as
    field B. *)
Theorem fetch_decodes (vm : VM) :
  0 <= pc vm ->
  (pc vm + 10 > capacity vm /\ fetch vm = (Ret None, set_running false vm)) \/
  (pc vm + 10 <= capacity vm /\
   exists opcode a b,
     fetch vm = (Ret (Some (opcode, a, b)), vm) /\
     0 <= opcode < 65536 /\
     length a = 4%nat /\ length b = 4%nat /\
     take 10 (drop (Z.to_nat (pc vm)) (memory vm))
     = [byte_of_Z (opcode / 256); byte_of_Z opcode] ++ a ++ b).
Proof.
  intros H0. destruct (Z.le_gt_cases (pc vm + 10) (capacity vm)) as [Hin|Hout].
  - right. split; [exact Hin|].
    destruct (fetch_inside vm H0 Hin) as (i0 & i1 & a & b & Hs & Ha & Hb & Hf).
    pose proof (byte_val_range i0). pose proof (byte_val_range i1).
    exists (256 * byte_val i0 + byte_val i1), a, b.
    rewrite <- opcode_range. split; [exact Hf|]. rewrite opcode_range.
    split; [lia|]. split; [exact Ha|]. split; [exact Hb|].
    unfold getslice in Hs. unfold capacity in Hin.
    destruct (slice_inside (memory vm) (pc vm) (pc vm + 10)) as [Hlo Hhi];
      [lia|lia|].
    rewrite Hlo, Hhi in Hs.
    replace (Z.to_nat (pc vm + 10) - Z.to_nat (pc vm))%nat with 10%nat in Hs
      by lia.
    rewrite Hs. simpl. f_equal; [|f_equal]; symmetry; apply byte_of_Z_val.
    + replace ((256 * byte_val i0 + byte_val i1) / 256) with (byte_val i0)
        by (apply Z.div_unique with (byte_val i1); lia).
      apply Z.mod_small. lia.
    + symmetry. apply Z.mod_unique with (byte_val i0); lia.
  - left. split; [lia|]. apply fetch_halts. lia.
Qed.

Lemma fetch_decodes_witness :
  let vm := load_program [x12; x34; x01; x02; x03; x04; x05; x06; x07; x08]
              (init 16) in
  fetch vm
  = (Ret (Some (0x1234, [x01; x02; x03; x04], [x05; x06; x07; x08])), vm) /\
  fetch (set_pc 7 vm) = (Ret None, set_running false (set_pc 7 vm)).
Proof.
  intros vm. split.
  - destruct (fetch_decodes vm) as [[H _]|[_ (opcode & a & b & Hf & _)]].
    + simpl. lia.
    + exfalso. vm_compute in H. discriminate H.
    + rewrite Hf. vm_compute in Hf. injection Hf as <- <- <-. reflexivity.
  - destruct (fetch_decodes (set_pc 7 vm)) as [[_ H]|[H _]].
    + simpl. lia.
    + exact H.
    + exfalso. vm_compute in H. apply H. reflexivity.
Defined.

(** ** The dispatch table *)

Lemma ops_get_in (opcode : Z) (h : handler) :
  ops_get opcode = Some h -> In (opcode, h) ops.
Proof.
  unfold ops_get. destruct (find _ ops) as [[k h']|] eqn:E; [|discriminate].
  simpl. intros [= <-]. apply find_some in E. destruct E as [Hin Hk].
  simpl in Hk. apply Z.eqb_eq in Hk. subst k. exact Hin.
Qed.

(** X10 (dispatch table): [self.ops] pairs the 32 handlers with 32
    distinct opcodes.  A lookup succeeds exactly on the listed pairs;
    every handler has one opcode and only one, found again by looking
    that opcode up; and every opcode outside 0x0001..0x0051, 0 among
    them, has no handler. *)
Theorem ops_table_bijection :
  (forall opcode h, ops_get opcode = Some h <-> In (opcode, h) ops) /\
  (forall opcode h, ops_get opcode = Some h <-> opcode = opcode_of h) /\
  (forall opcode, opcode < 0x0001 \/ 0x0051 < opcode -> ops_get opcode = None) /\
  length ops = 32%nat.
Proof.
  assert (Hof : forall opcode h, In (opcode, h) ops -> opcode = opcode_of h).
  { intros opcode h Hin. simpl in Hin.
    repeat (destruct Hin as [Hin|Hin]; [injection Hin as <- <-; reflexivity|]).
    destruct Hin. }
  assert (Hget : forall h, ops_get (opcode_of h) = Some h).
  { intros h. destruct h; reflexivity. }
  split; [|split; [|split]].
  - intros opcode h. split; [apply ops_get_in|].
    intros Hin. rewrite (Hof opcode h Hin). apply Hget.
  - intros opcode h. split.
    + intros H. apply Hof, ops_get_in, H.
    + intros ->. apply Hget.
  - intros opcode Hout. destruct (ops_get opcode) as [h|] eqn:E; [|reflexivity].
    apply ops_get_in, Hof in E. subst opcode. exfalso.
    destruct h; simpl in Hout; lia.
  - reflexivity.
Qed.

Lemma ops_table_bijection_witness :
  ops_get 0x0033 = Some CALL /\ ops_get 0x0010 <> Some CALL /\
  ops_get 0 = None.
Proof.
  destruct ops_table_bijection as (_ & H & Hout & _).
  split; [apply H; reflexivity|]. split.
  - intros Hc. apply H in Hc. discriminate Hc.
  - apply Hout. left. lia.
Defined.

(** ** Whole runs *)

(** X11 (no program): a freshly constructed machine that is run without
    loading anything stops within one cycle, whatever its size.  With
    fewer than ten bytes of memory it stops on the fetch guard and prints
    nothing; otherwise it fetches opcode 0, which has no handler, prints
    "Unknown opcode 0000 at 0" and stops with PC = 10.  Registers and
    memory are untouched in both cases. *)
Theorem fresh_machine_run (n fuel : nat) :
  ((n < 10)%nat ->
     run (S fuel) (init n) = (Finished, set_running false (init n))) /\
  ((10 <= n)%nat ->
     run (S fuel) (init n)
     = (Finished,
        set_running false
          (print "Unknown opcode 0000 at 0"%string (set_pc 10 (init n))))).
Proof.
  split.
  - intros Hn. apply run_halts_at_end; [reflexivity|].
    unfold capacity. simpl. rewrite length_replicate. lia.
  - intros Hn.
    assert (Hcap : capacity (init n) = Z.of_nat n)
      by (unfold capacity; simpl; rewrite length_replicate; reflexivity).
    destruct (fetch_inside (init n)) as (i0 & i1 & a & b & Hs & Ha & Hb & Hf);
      [simpl; lia | rewrite Hcap; simpl; lia |].
    assert (Hz : i0 = x00 /\ i1 = x00).
    { change (pc (init n)) with 0 in Hs. change (0 + 10) with 10 in Hs.
      unfold getslice in Hs.
      destruct (slice_inside (memory (init n)) 0 10) as [Hlo Hhi];
        [lia | fold (capacity (init n)); rewrite Hcap; lia |].
      rewrite Hlo, Hhi in Hs.
      change (Z.to_nat 10 - Z.to_nat 0)%nat with 10%nat in Hs.
      change (drop (Z.to_nat 0) (memory (init n))) with (replicate n x00) in Hs.
      rewrite take_replicate in Hs.
      replace (10 `min` n)%nat with 10%nat in Hs by lia.
      simpl in Hs. injection Hs as <- <- _. split; reflexivity. }
    destruct Hz as [-> ->]. simpl in Hf.
    simpl run. rewrite (cycle_eq (init n) 0 a b Hf).
    unfold bind at 1.
    rewrite (dispatch_unknown (init n) 0 a b eq_refl).
    destruct fuel; reflexivity.
Qed.

Lemma fresh_machine_run_witness :
  run 1 (init 4) = (Finished, set_running false (init 4)) /\
  stdout (snd (run 5 (init 64))) = ["Unknown opcode 0000 at 0"%string].
Proof.
  split.
  - destruct (fresh_machine_run 4 0) as [H _]. apply H. lia.
  - destruct (fresh_machine_run 64 4) as [_ H]. rewrite H by lia. reflexivity.
Defined.

Lemma fetch_stdout vm :
  stdout (snd (fetch vm)) = stdout vm /\
  (forall r, fst (fetch vm) = Ret (Some r) -> snd (fetch vm) = vm).
Proof.
  unfold fetch, bind, gets, modify, ret, lift.
  destruct (_ >? _); simpl; [split; [reflexivity|discriminate]|].
  destruct (getitem _ 0); simpl; [|split; [reflexivity|discriminate]].
  destruct (getitem _ 1); simpl; split; reflexivity || discriminate.
Qed.

(** What one cycle does to the output: nothing, the running flag then
    being as the handler (which never touches it) or the fetch left it;
    or one line, and then the machine is stopped. *)
Lemma cycle_output vm :
  stdout (snd (cycle vm)) = stdout vm \/
  (exists line, stdout (snd (cycle vm)) = stdout vm ++ [line] /\
     fst (cycle vm) = Ret true /\ running (snd (cycle vm)) = false).
Proof.
  unfold cycle, bind. destruct (fetch_stdout vm) as [Hout Hsame].
  destruct (fetch vm) as [[[[[opcode a] b]|]|e] vm1]; simpl in *;
    try (left; exact Hout).
  rewrite (Hsame _ eq_refl) in *. clear Hsame Hout vm1.
  destruct (ops_get opcode) as [h|] eqn:Hh.
  - left. rewrite (dispatch_known vm opcode h a b Hh).
    pose proof (call_quiet h a b (set_pc (pc vm + 10) vm)) as [_ Hq].
    destruct (call h a b (set_pc (pc vm + 10) vm)) as [[[]|e] vm2]; exact Hq.
  - right. rewrite (dispatch_unknown vm opcode a b Hh). simpl.
    eexists. repeat split.
Qed.

(** X12 (at most one diagnostic): a run, however long and from whatever
    state, adds at most one line to the output; if it added one, the run
    ended by leaving the loop with the running flag cleared, not by an
    exception. *)
Theorem run_prints_at_most_once (fuel : nat) (vm : VM) :
  stdout (snd (run fuel vm)) = stdout vm \/
  (exists line, stdout (snd (run fuel vm)) = stdout vm ++ [line] /\
     fst (run fuel vm) = Finished /\ running (snd (run fuel vm)) = false).
Proof.
  revert vm. induction fuel as [|fuel IH]; intros vm; simpl.
  - destruct (running vm); left; reflexivity.
  - destruct (running vm) eqn:Hr; [|left; reflexivity].
    destruct (cycle_output vm) as [Hsame|(line & Hout & Hret & Hrun)].
    + destruct (cycle vm) as [[[|]|e] vm']; simpl in *;
        try (left; exact Hsame).
      rewrite <- Hsame. apply IH.
    + destruct (cycle vm) as [[[|]|e] vm']; simpl in *; try discriminate.
      right. exists line.
      destruct fuel; simpl; rewrite Hrun; simpl; repeat split; assumption.
Qed.

(** X13 (registers stay words): whatever bytes are loaded into a fresh
    machine and however long it runs, and whether the run finishes, is
    cut short or raises, the register file still has sixteen entries,
    each in [0, 2^32). *)
Theorem run_keeps_registers_u32 (n fuel : nat) (prog : list byte) :
  wf (snd (run fuel (load_program prog (init n)))).
Proof. apply run_wf, wf_load_program, wf_init. Qed.

(** ** Memory never shrinks *)

Lemma slice_span_le {A} (l : list A) (i : Z) :
  (slice_hi l i (i + 4) - slice_lo l i <= 4)%nat.
Proof.
  unfold slice_lo, slice_hi, adjust.
  destruct (Z.ltb_spec i 0); destruct (Z.ltb_spec (i + 4) 0); lia.
Qed.

Lemma grows_bind {A B} (m : M A) (k : A -> M B) :
  grows m -> (forall x, grows (k x)) -> grows (bind m k).
Proof.
  intros Hm Hk vm. unfold bind. specialize (Hm vm).
  destruct (m vm) as [[x|e] vm']; simpl in *; [|exact Hm].
  specialize (Hk x vm'). lia.
Qed.

Lemma grows_same {A} (m : M A) :
  (forall vm, memory (snd (m vm)) = memory vm) -> grows m.
Proof. intros H vm. unfold capacity. rewrite H. lia. Qed.

Lemma grows_store_word (addr v : Z) : grows (store_word addr v).
Proof.
  intros vm. unfold store_word, bind, lift, gets, modify.
  destruct (pack_u32_be v) as [bs|e] eqn:Hp; simpl; [|lia].
  unfold capacity. simpl. rewrite setslice_length.
  rewrite (pack_u32_be_length _ _ Hp).
  pose proof (slice_span_le (memory vm) addr).
  pose proof (slice_hi_le (memory vm) addr (addr + 4)).
  pose proof (slice_lo_hi (memory vm) addr (addr + 4)). lia.
Qed.

Ltac grows_step :=
  first
    [ apply grows_store_word
    | apply grows_same; intros ?; reflexivity
    | match goal with
      | |- grows (if ?c then _ else _) => destruct c
      | |- grows (match ?x with _ => _ end) => destruct x
      end
    | apply grows_bind; [|intros ?] ].

Lemma call_grows (h : handler) (a b : list byte) : grows (call h a b).
Proof.
  destruct h; simpl call;
    unfold op_ld, op_lc, op_dr, op_cpy, op_or, op_and, op_xor, op_nand,
      op_nor, op_not, op_add, op_sub, op_mul, op_div, op_exp, op_jmp,
      op_jmr, op_cmp, op_cmr, op_psh, op_pop, op_movsp, op_call, op_ret,
      op_gt, op_lt, op_eq, op_ne, op_ge, op_le, op_ldi, op_sti,
      _set_acc, reg_operand, get_reg, set_reg, load_word;
    repeat grows_step.
Qed.

Lemma cycle_grows : grows cycle.
Proof.
  unfold cycle, fetch, dispatch.
  repeat first
    [ apply call_grows
    | grows_step
    | match goal with
      | |- grows (let '(_, _) := ?p in _) => destruct p
      | |- grows (let _ := _ in _) => cbv zeta
      end ].
Qed.

(** X14 (memory never shrinks): no run makes memory shorter.  Every store
    writes four bytes over a slice of at most four, so [len(self.memory)],
    the bound the fetch guard tests, can only stay or increase, from any
    state and for any number of cycles. *)
Theorem run_memory_never_shrinks (fuel : nat) (vm : VM) :
  capacity vm <= capacity (snd (run fuel vm)).
Proof.
  revert vm. induction fuel as [|fuel IH]; intros vm; simpl.
  - destruct (running vm); simpl; lia.
  - destruct (running vm); simpl; [|lia].
    pose proof (cycle_grows vm) as Hc.
    destruct (cycle vm) as [[[|]|e] vm']; simpl in *; try exact Hc.
    specialize (IH vm'). lia.
Qed.

(** ** The accumulator is write-only *)

Lemma blind_print (line : string) : blind (modify (print line)).
Proof.
  apply blind_modify. intros vm1 vm2 (Hm & Hp & Hsp & Hr & Ho & Hl & Hk).
  repeat split; simpl; try assumption. rewrite Ho. reflexivity.
Qed.

Lemma fetch_blind : blind fetch.
Proof.
  unfold fetch.
  repeat first
    [ blind_step
    | match goal with
      | |- blind (let _ := _ in _) => cbv zeta
      end ].
Qed.

Lemma dispatch_blind (opcode : Z) (a b : list byte) :
  blind (dispatch opcode a b).
Proof.
  unfold dispatch.
  repeat first
    [ apply call_blind
    | apply blind_print
    | blind_step
    | match goal with
      | |- blind (match ?x with _ => _ end) => destruct x
      end ].
Qed.

Lemma cycle_blind : blind cycle.
Proof.
  unfold cycle. apply blind_bind; [apply fetch_blind|].
  intros [[[opcode a] b]|]; [|apply blind_ret].
  apply blind_bind; [apply dispatch_blind|]. intros []. apply blind_ret.
Qed.

(** X15 (nothing depends on register 15): two machines that differ only
    in the content of register 15 run in lockstep.  After any number of
    cycles they have ended in the same way (still going, finished, or the
    same exception) and still differ at most in register 15: memory,
    registers 0 to 14, PC, SP, the running flag and the output are equal.
    So the results that the arithmetic, bitwise and comparison
    instructions leave in the accumulator never influence a run. *)
Theorem run_blind_to_accumulator (fuel : nat) (vm1 vm2 : VM) :
  same_but_acc vm1 vm2 ->
  fst (run fuel vm1) = fst (run fuel vm2) /\
  same_but_acc (snd (run fuel vm1)) (snd (run fuel vm2)).
Proof.
  revert vm1 vm2. induction fuel as [|fuel IH]; intros vm1 vm2 Hs; simpl;
    pose proof Hs as (_ & _ & _ & Hr & _); rewrite Hr.
  - destruct (running vm2); split; try reflexivity; exact Hs.
  - destruct (running vm2); [|split; [reflexivity|exact Hs]].
    destruct (cycle_blind vm1 vm2 Hs) as [Hres Hs'].
    destruct (cycle vm1) as [[[|]|e1] s1], (cycle vm2) as [[[|]|e2] s2];
      simpl in *; try discriminate.
    + apply IH, Hs'.
    + split; [reflexivity|exact Hs'].
    + injection Hres as ->. split; [reflexivity|exact Hs'].
Qed.

(** LC r0 = 2; CPY from index 15 into r1: started with 0 or with 99 in
    register 15, the run ends in the same way and r1 is the same. *)
Lemma run_blind_to_accumulator_witness :
  let prog := [x00; x02; x00; x00; x00; x02; x00; x00; x00; x00;
               x00; x04; x00; x00; x00; x0f; x00; x00; x00; x01] in
  let vm := load_program prog (init 32) in
  let vm' := set_regs (<[15%nat:=99]> (regs vm)) vm in
  fst (run 4 vm) = fst (run 4 vm') /\
  reg_val (snd (run 4 vm)) 1 = reg_val (snd (run 4 vm')) 1.
Proof.
  intros prog vm vm'.
  destruct (run_blind_to_accumulator 4 vm vm') as [H1 (_ & _ & _ & _ & _ & _ & H2)].
  - repeat split; try reflexivity. intros k Hk.
    change (regs vm') with (<[15%nat:=99]> (regs vm)).
    symmetry. apply list_lookup_insert_ne. congruence.
  - split; [exact H1|]. unfold reg_val. rewrite (H2 1%nat); [reflexivity|lia].
Defined.

(** ** Loading a program *)

Lemma load_program_memory (prog : list byte) (vm : VM) :
  memory (load_program prog vm) = prog ++ drop (length prog) (memory vm).
Proof.
  unfold load_program. simpl. unfold setslice, slice_lo, slice_hi, adjust.
  change (0 <? 0) with false. cbv iota.
  destruct (Z.ltb_spec (Z.of_nat (length prog)) 0); [lia|].
  assert (Hlo : Z.to_nat (Z.min 0 (Z.of_nat (length (memory vm)))) = 0%nat)
    by lia.
  rewrite Hlo. rewrite take_0. simpl app. f_equal.
  destruct (Nat.le_gt_cases (length prog) (length (memory vm))).
  - f_equal. lia.
  - rewrite !drop_ge by lia. reflexivity.
Qed.

(** X16 (loader): [vm.memory[:len(prog)] = prog] never fails.  The
    program becomes the first bytes of memory and the bytes of the old
    memory from offset len(prog) on follow it; a program longer than
    memory therefore makes memory as long as the program, and an empty
    program changes nothing.  Registers, PC, SP and the running flag are
    not touched. *)
Theorem load_program_layout (prog : list byte) (vm : VM) :
  memory (load_program prog vm) = prog ++ drop (length prog) (memory vm) /\
  capacity (load_program prog vm)
  = Z.max (Z.of_nat (length prog)) (capacity vm) /\
  take (length prog) (memory (load_program prog vm)) = prog /\
  regs (load_program prog vm) = regs vm /\
  pc (load_program prog vm) = pc vm /\ sp (load_program prog vm) = sp vm /\
  running (load_program prog vm) = running vm /\
  load_program [] vm = vm.
Proof.
  pose proof (load_program_memory prog vm) as Hmem.
  split; [exact Hmem|]. split; [|split; [|split; [|split; [|split; [|split]]]]];
    try reflexivity.
  - unfold capacity. rewrite Hmem, length_app, length_drop. lia.
  - rewrite Hmem. apply take_app_length.
  - pose proof (load_program_memory [] vm) as H0.
    unfold load_program in H0 |- *. simpl memory in H0.
    change (length (@nil byte)) with 0%nat. rewrite H0.
    destruct vm. reflexivity.
Qed.

(** ** Where the program counter can go *)

Lemma pc_bind {A B} (Q : A -> Prop) (m : M A) (k : A -> M B) :
  triple (fun vm => 0 <= pc vm) m
    (fun r vm => 0 <= pc vm /\ match r with Ret x => Q x | Raise _ => True end) ->
  (forall x, Q x -> triple (fun vm => 0 <= pc vm) (k x) (fun _ vm => 0 <= pc vm)) ->
  triple (fun vm => 0 <= pc vm) (bind m k) (fun _ vm => 0 <= pc vm).
Proof.
  intros Hm Hk vm Hpc. unfold bind. specialize (Hm vm Hpc).
  destruct (m vm) as [[x|e] vm']; simpl in *.
  - destruct Hm as [Hpc' Hq]. apply (Hk x Hq vm' Hpc').
  - apply Hm.
Qed.

Lemma pc_still {A} (Q : A -> Prop) (m : M A) :
  (forall vm, pc (snd (m vm)) = pc vm) ->
  (forall vm x, fst (m vm) = Ret x -> Q x) ->
  triple (fun vm => 0 <= pc vm) m
    (fun r vm => 0 <= pc vm /\ match r with Ret x => Q x | Raise _ => True end).
Proof.
  intros Hs Hq vm Hpc. rewrite Hs. split; [exact Hpc|].
  destruct (fst (m vm)) as [x|e] eqn:E; [|exact I]. apply (Hq vm x E).
Qed.

Lemma pc_last {A} (m : M A) :
  (forall vm, pc (snd (m vm)) = pc vm) ->
  triple (fun vm => 0 <= pc vm) m (fun _ vm => 0 <= pc vm).
Proof. intros Hs vm Hpc. rewrite Hs. exact Hpc. Qed.

Lemma pc_read_u32 (f : list byte) :
  triple (fun vm => 0 <= pc vm) (lift (read_u32_be f))
    (fun r vm => 0 <= pc vm /\ match r with Ret x => 0 <= x | Raise _ => True end).
Proof.
  apply pc_still; [reflexivity|]. intros vm x H.
  apply read_u32_be_range in H. unfold u32 in H. lia.
Qed.

Lemma pc_load_word (addr : Z) :
  triple (fun vm => 0 <= pc vm) (load_word addr)
    (fun r vm => 0 <= pc vm /\ match r with Ret x => 0 <= x | Raise _ => True end).
Proof.
  apply pc_still; [reflexivity|]. intros vm x H. rewrite load_word_eq in H.
  apply read_u32_be_range in H. unfold u32 in H. lia.
Qed.

Lemma pc_set (x : Z) :
  0 <= x -> triple (fun vm => 0 <= pc vm) (modify (set_pc x)) (fun _ vm => 0 <= pc vm).
Proof. intros Hx vm _. exact Hx. Qed.

Lemma pc_other {A} (m : M A) :
  (forall vm, pc (snd (m vm)) = pc vm) ->
  triple (fun vm => 0 <= pc vm) m
    (fun r vm => 0 <= pc vm /\ match r with Ret x => True | Raise _ => True end).
Proof.
  intros Hs. apply pc_still; [exact Hs|]. intros; exact I.
Qed.

Lemma set_reg_pc (r v : Z) vm : pc (snd (set_reg r v vm)) = pc vm.
Proof.
  unfold set_reg, bind, gets, modify, lift.
  destruct (norm_index _ r); reflexivity.
Qed.

Lemma get_reg_pc (r : Z) vm : pc (snd (get_reg r vm)) = pc vm.
Proof.
  unfold get_reg, bind, gets, lift. reflexivity.
Qed.

Lemma store_word_pc (addr v : Z) vm : pc (snd (store_word addr v vm)) = pc vm.
Proof.
  unfold store_word, bind, gets, modify, lift.
  destruct (pack_u32_be v); reflexivity.
Qed.

Lemma reg_operand_pc (f : list byte) vm : pc (snd (reg_operand f vm)) = pc vm.
Proof. rewrite reg_operand_state. reflexivity. Qed.

Ltac pc_keep :=
  first
    [ intros ?; apply set_reg_pc
    | intros ?; apply get_reg_pc
    | intros ?; apply store_word_pc
    | intros ?; apply reg_operand_pc
    | intros ?; reflexivity ].

Ltac pc_step :=
  first
    [ apply pc_set; assumption
    | apply pc_last; pc_keep
    | match goal with
      | |- triple _ (if ?c then _ else _) _ => destruct c
      end
    | eapply pc_bind;
      [ first [ apply pc_read_u32 | apply pc_load_word
              | apply pc_other; pc_keep ]
      | intros ? ?; cbv beta in * ] ].

Lemma call_pc_nonneg (h : handler) (a b : list byte) :
  is_relative_jump h = false ->
  triple (fun vm => 0 <= pc vm) (call h a b) (fun _ vm => 0 <= pc vm).
Proof.
  destruct h; try discriminate; intros _; simpl call;
    unfold op_ld, op_lc, op_dr, op_cpy, op_or, op_and, op_xor, op_nand,
      op_nor, op_not, op_add, op_sub, op_mul, op_div, op_exp, op_jmp,
      op_cmp, op_psh, op_pop, op_movsp, op_call, op_ret,
      op_gt, op_lt, op_eq, op_ne, op_ge, op_le, op_ldi, op_sti, _set_acc;
    repeat pc_step.
Qed.

(** X17 (only relative jumps leave memory downwards): a cycle that starts
    with PC >= 0 and does not dispatch JMR or CMR ends with PC >= 0,
    whether the handler returns or raises: JMP, CMP, CALL and RET take PC
    from an unsigned word and the others leave PC + 10.  This includes
    the cycles whose opcode has no handler and those in which the fetch
    stops the machine. *)
Theorem pc_stays_nonnegative (vm : VM) :
  0 <= pc vm ->
  (forall opcode a b h,
     fetch vm = (Ret (Some (opcode, a, b)), vm) ->
     ops_get opcode = Some h -> is_relative_jump h = false) ->
  0 <= pc (snd (cycle vm)).
Proof.
  intros Hpc Hrel. unfold cycle, bind.
  destruct (fetch_decodes vm Hpc)
    as [[_ Hf]|[_ (opcode & a & b & Hf & _)]].
  - rewrite Hf. exact Hpc.
  - specialize (Hrel opcode a b). rewrite Hf.
    destruct (ops_get opcode) as [h|] eqn:Hh.
    + specialize (Hrel h Hf eq_refl).
      rewrite (dispatch_known vm opcode h a b Hh).
      pose proof (call_pc_nonneg h a b Hrel (set_pc (pc vm + 10) vm)) as H.
      simpl in H. specialize (H ltac:(lia)).
      destruct (call h a b (set_pc (pc vm + 10) vm)) as [[[]|e] vm'];
        exact H.
    + rewrite (dispatch_unknown vm opcode a b Hh). simpl. lia.
Qed.

(** RET of the word 0x00000004 found at SP: PC = 4. *)
Lemma pc_stays_nonnegative_witness :
  let prog := [x00; x34; x00; x00; x00; x00; x00; x00; x00; x00] in
  let vm := set_sp 12 (load_program (prog ++ [x00; x00; x00; x00; x00; x04])
                         (init 16)) in
  0 <= pc (snd (cycle vm)).
Proof.
  intros prog vm.
  apply (pc_stays_nonnegative vm).
  - simpl. lia.
  - intros opcode a b h Hf Hh. vm_compute in Hf.
    injection Hf as <- <- <-. vm_compute in Hh. injection Hh as <-.
    reflexivity.
Defined.

(** ** The stack is last-in, first-out *)

Lemma getslice_setslice_above {A} (l v : list A) (i j : Z) :
  0 <= i -> i + 4 <= j -> j + 4 <= Z.of_nat (length l) -> length v = 4%nat ->
  getslice (setslice l i (i + 4) v) j (j + 4) = getslice l j (j + 4).
Proof.
  intros Hi Hij Hj Hv.
  destruct (setslice_inside l v i Hi ltac:(lia) Hv) as [Hlen _].
  unfold getslice.
  destruct (slice_inside (setslice l i (i + 4) v) j (j + 4)) as [-> ->];
    [lia|lia|].
  destruct (slice_inside l j (j + 4)) as [-> ->]; [lia|lia|].
  f_equal. unfold setslice.
  destruct (slice_inside l i (i + 4)) as [-> ->]; [lia|lia|].
  rewrite app_assoc.
  rewrite drop_app_ge by (rewrite length_app, length_take; lia).
  rewrite length_app, length_take, Hv, drop_drop. f_equal. lia.
Qed.

(** A push inside memory, with what it leaves behind: the word at the new
    SP, and every word above it as it was. *)
Lemma op_psh_inside (a b : list byte) vm :
  length a = 4%nat -> wf vm -> 4 <= sp vm <= capacity vm ->
  exists vm1,
    op_psh a b vm = (Ret tt, vm1) /\
    regs vm1 = regs vm /\ sp vm1 = sp vm - 4 /\
    capacity vm1 = capacity vm /\
    load_word (sp vm - 4) vm1 = (Ret (reg_val vm (reg_of a)), vm1) /\
    forall j, sp vm <= j -> j + 4 <= capacity vm ->
      fst (load_word j vm1) = fst (load_word j vm).
Proof.
  intros Ha Hwf Hsp. pose proof (wf_length vm Hwf) as Hl.
  destruct (store_word_eq (set_sp (sp vm - 4) vm) (sp vm - 4)
              (reg_val vm (reg_of a)) (wf_reg_val vm _ Hwf))
    as (bs & Hp & Hr & Hs).
  pose proof (pack_u32_be_length _ _ Hp) as Hbs.
  unfold capacity in *.
  destruct (setslice_inside (memory vm) bs (sp vm - 4)) as [Hlen Hget];
    [lia|lia|exact Hbs|].
  eexists. split; [rewrite (op_psh_eq a b vm Ha Hl); exact Hs|].
  split; [reflexivity|]. split; [reflexivity|].
  split; [simpl; rewrite Hlen; reflexivity|]. split.
  - rewrite load_word_eq. simpl. rewrite Hget, Hr. reflexivity.
  - intros j Hj Hjc. rewrite !load_word_eq. simpl.
    rewrite getslice_setslice_above by (lia || assumption). reflexivity.
Qed.

(** A pop of a word that can be read. *)
Lemma op_pop_inside (a b : list byte) vm (v : Z) :
  length a = 4%nat -> length (regs vm) = 16%nat ->
  fst (load_word (sp vm) vm) = Ret v ->
  op_pop a b vm
  = (Ret tt, set_sp (sp vm + 4) (set_regs (<[reg_of a:=v]> (regs vm)) vm)).
Proof.
  intros Ha Hl Hld. apply op_pop_eq; try assumption.
  rewrite load_word_eq in *. simpl in Hld. rewrite Hld. reflexivity.
Qed.

(** X18 (last in, first out): with at least eight bytes of stack room
    inside memory, two PSH followed by two POP all return; the first POP
    delivers the value pushed second, the second POP the value pushed
    first, and SP is back where it started. *)
Theorem stack_is_lifo (a1 b1 a2 b2 c1 d1 c2 d2 : list byte) (vm : VM) :
  length a1 = 4%nat -> length a2 = 4%nat ->
  length c1 = 4%nat -> length c2 = 4%nat -> wf vm ->
  8 <= sp vm <= capacity vm ->
  exists vm1 vm2 vm3 vm4,
    call PSH a1 b1 vm = (Ret tt, vm1) /\
    call PSH a2 b2 vm1 = (Ret tt, vm2) /\
    call POP c1 d1 vm2 = (Ret tt, vm3) /\
    call POP c2 d2 vm3 = (Ret tt, vm4) /\
    reg_val vm3 (reg_of c1) = reg_val vm (reg_of a2) /\
    reg_val vm4 (reg_of c2) = reg_val vm (reg_of a1) /\
    sp vm4 = sp vm /\ capacity vm4 = capacity vm.
Proof.
  intros Ha1 Ha2 Hc1 Hc2 Hwf Hsp. pose proof (wf_length vm Hwf) as Hl.
  destruct (op_psh_inside a1 b1 vm Ha1 Hwf)
    as (vm1 & H1 & Hregs1 & Hsp1 & Hcap1 & Hld1 & _); [lia|].
  assert (Hwf1 : wf vm1) by (split; rewrite Hregs1; apply Hwf).
  destruct (op_psh_inside a2 b2 vm1 Ha2 Hwf1)
    as (vm2 & H2 & Hregs2 & Hsp2 & Hcap2 & Hld2 & Hframe2); [lia|].
  assert (Hy : reg_val vm1 (reg_of a2) = reg_val vm (reg_of a2))
    by (unfold reg_val; rewrite Hregs1; reflexivity).
  assert (Hl2 : length (regs vm2) = 16%nat) by (rewrite Hregs2, Hregs1; exact Hl).
  pose proof (reg_of_le c1). pose proof (reg_of_le c2).
  exists vm1, vm2. eexists. eexists.
  split; [exact H1|]. split; [exact H2|]. split; [|split].
  - simpl call. apply (op_pop_inside c1 d1 vm2 (reg_val vm (reg_of a2)));
      try assumption.
    rewrite Hsp2, Hld2, Hy. reflexivity.
  - simpl call. apply (op_pop_inside c2 d2 _ (reg_val vm (reg_of a1)));
      try assumption.
    + simpl. rewrite length_insert. exact Hl2.
    + simpl sp. rewrite load_word_eq. simpl memory.
      specialize (Hframe2 (sp vm1) ltac:(lia) ltac:(lia)).
      rewrite !load_word_eq in Hframe2. simpl in Hframe2.
      replace (sp vm2 + 4) with (sp vm1) by lia. simpl. rewrite Hframe2.
      rewrite Hsp1. rewrite load_word_eq in Hld1. simpl in Hld1.
      injection Hld1 as Hld1. exact Hld1.
  - unfold reg_val, capacity in *. simpl.
    split; [|split; [|split]].
    + rewrite list_lookup_insert_eq by lia. reflexivity.
    + rewrite list_lookup_insert_eq by (rewrite length_insert; lia).
      reflexivity.
    + lia.
    + lia.
Qed.

Lemma stack_is_lifo_witness :
  let vm := set_regs (<[1%nat:=11]> (<[2%nat:=22]> (regs (init 16)))) (init 16) in
  exists vm1 vm2 vm3 vm4,
    call PSH [x00; x00; x00; x01] [] vm = (Ret tt, vm1) /\
    call PSH [x00; x00; x00; x02] [] vm1 = (Ret tt, vm2) /\
    call POP [x00; x00; x00; x05] [] vm2 = (Ret tt, vm3) /\
    call POP [x00; x00; x00; x06] [] vm3 = (Ret tt, vm4) /\
    reg_val vm4 5 = 22 /\ reg_val vm4 6 = 11 /\ sp vm4 = 16.
Proof.
  intros vm.
  assert (Hwf : wf vm).
  { split; [reflexivity|]. unfold u32. repeat constructor; lia. }
  destruct (stack_is_lifo [x00; x00; x00; x01] [] [x00; x00; x00; x02] []
              [x00; x00; x00; x05] [] [x00; x00; x00; x06] [] vm
              eq_refl eq_refl eq_refl eq_refl Hwf)
    as (vm1 & vm2 & vm3 & vm4 & H1 & H2 & H3 & H4 & H5 & H6 & H7 & _).
  - vm_compute. split; discriminate.
  - exists vm1, vm2, vm3, vm4.
    split; [exact H1|]. split; [exact H2|]. split; [exact H3|].
    split; [exact H4|]. split; [|split; [exact H6|exact H7]].
    vm_compute in H1. injection H1 as <-. vm_compute in H2. injection H2 as <-.
    vm_compute in H3. injection H3 as <-. vm_compute in H4. injection H4 as <-.
    reflexivity.
Defined.

(** ** Constants, copies and the stack pointer *)

Lemma op_lc_eq (a b : list byte) vm (c : Z) :
  read_u32_be a = Ret c -> length b = 4%nat -> length (regs vm) = 16%nat ->
  op_lc a b vm = (Ret tt, set_regs (<[reg_of b:=c]> (regs vm)) vm).
Proof.
  intros Ha Hb Hl. pose proof (reg_of_le b). unfold op_lc.
  bind_by (unfold lift; rewrite Ha; reflexivity).
  bind_by (apply reg_operand_eq; assumption).
  apply set_reg_eq; [assumption|lia].
Qed.

Lemma op_cpy_eq (a b : list byte) vm :
  length a = 4%nat -> length b = 4%nat -> length (regs vm) = 16%nat ->
  op_cpy a b vm
  = (Ret tt, set_regs (<[reg_of b:=reg_val vm (reg_of a)]> (regs vm)) vm).
Proof.
  intros Ha Hb Hl. pose proof (reg_of_le a). pose proof (reg_of_le b).
  unfold op_cpy.
  bind_by (apply reg_operand_eq; assumption).
  bind_by (apply reg_operand_eq; assumption).
  bind_by (apply get_reg_eq; [assumption|lia]).
  apply set_reg_eq; [assumption|lia].
Qed.

(** X19 (constant then copy): LC of a 4-byte constant into a register and
    CPY from that register into another both return; afterwards both
    registers hold the constant, an unsigned 32-bit value, every register
    other than those two is as before, and memory, PC and SP are
    untouched. *)
Theorem lc_then_cpy (a b a' b' : list byte) (vm : VM) (c : Z) :
  read_u32_be a = Ret c -> length b = 4%nat ->
  length a' = 4%nat -> length b' = 4%nat -> length (regs vm) = 16%nat ->
  reg_of a' = reg_of b ->
  exists vm1 vm2,
    call LC a b vm = (Ret tt, vm1) /\
    call CPY a' b' vm1 = (Ret tt, vm2) /\
    u32 c /\
    reg_val vm2 (reg_of b) = c /\ reg_val vm2 (reg_of b') = c /\
    (forall k, k <> reg_of b -> k <> reg_of b' -> reg_val vm2 k = reg_val vm k) /\
    memory vm2 = memory vm /\ pc vm2 = pc vm /\ sp vm2 = sp vm.
Proof.
  intros Ha Hb Ha' Hb' Hl Hsame.
  pose proof (reg_of_le b). pose proof (reg_of_le b').
  exists (set_regs (<[reg_of b:=c]> (regs vm)) vm). eexists.
  split; [apply op_lc_eq; assumption|]. split.
  - simpl call. apply op_cpy_eq; try assumption.
    simpl. rewrite length_insert. exact Hl.
  - split; [exact (read_u32_be_range a c Ha)|].
    rewrite Hsame. unfold reg_val. simpl.
    rewrite (list_lookup_insert_eq (regs vm) (reg_of b) c) by lia. simpl.
    split; [|split; [|split; [|repeat split]]].
    + destruct (decide (reg_of b' = reg_of b)) as [->|Hne].
      * rewrite list_lookup_insert_eq by (rewrite length_insert; lia).
        reflexivity.
      * rewrite list_lookup_insert_ne by assumption.
        rewrite list_lookup_insert_eq by lia. reflexivity.
    + rewrite list_lookup_insert_eq by (rewrite length_insert; lia).
      reflexivity.
    + intros k Hk Hk'. rewrite !list_lookup_insert_ne by congruence.
      reflexivity.
Qed.

Lemma lc_then_cpy_witness :
  exists vm1 vm2,
    call LC [x00; x00; x01; x00] [x00; x00; x00; x02] (init 16) = (Ret tt, vm1) /\
    call CPY [x00; x00; x00; x02] [x00; x00; x00; xff] vm1 = (Ret tt, vm2) /\
    reg_val vm2 2 = 256 /\ reg_val vm2 14 = 256.
Proof.
  destruct (lc_then_cpy [x00; x00; x01; x00] [x00; x00; x00; x02]
              [x00; x00; x00; x02] [x00; x00; x00; xff] (init 16) 256
              eq_refl eq_refl eq_refl eq_refl eq_refl eq_refl)
    as (vm1 & vm2 & H1 & H2 & _ & H3 & H4 & _).
  exists vm1, vm2. repeat split; assumption.
Defined.

(** X20 (moving the stack pointer): MOVSP adds the signed 32-bit offset
    of field A to SP and changes nothing else; it checks no bound, so SP
    may leave memory in either direction; and a second MOVSP by the
    opposite offset restores the state exactly. *)
Theorem movsp_then_back (a b a' b' : list byte) (vm : VM) (k : Z) :
  read_s32_be a = Ret k -> read_s32_be a' = Ret (- k) ->
  call MOVSP a b vm = (Ret tt, set_sp (sp vm + k) vm) /\
  call MOVSP a' b' (set_sp (sp vm + k) vm) = (Ret tt, vm).
Proof.
  intros Ha Ha'. simpl call. unfold op_movsp, bind, lift, gets, modify.
  rewrite Ha, Ha'. simpl. split; [reflexivity|].
  replace (sp vm + k + - k) with (sp vm) by lia.
  destruct vm. reflexivity.
Qed.

(** MOVSP 8 on a fresh 16-byte machine puts SP at 24, outside memory;
    MOVSP -8 brings it back. *)
Lemma movsp_then_back_witness :
  call MOVSP [x00; x00; x00; x08] [] (init 16) = (Ret tt, set_sp 24 (init 16)) /\
  call MOVSP [xff; xff; xff; xf8] [] (set_sp 24 (init 16)) = (Ret tt, init 16).
Proof.
  exact (movsp_then_back [x00; x00; x00; x08] [] [xff; xff; xff; xf8] []
           (init 16) 8 eq_refl eq_refl).
Defined.
